(** * Knight's tour, closed version: the search core of knights-tour.py

    A shallow embedding of the move generator, the closure check and the two
    search strategies (Las Vegas walk, Warnsdorff-ordered backtracking),
    followed by the properties the specification states about them. *)

From Stdlib Require Import ZArith Lia Sorted.
From stdpp Require Import base numbers list.

Open Scope Z_scope.

(** ** Data model *)

(** A position is a pair of Python ints (row, col); coordinates may leave the
    grid after an offset is added, hence [Z]. *)
Abbreviation Pos := (Z * Z)%type.

(** [List[List[int]]]: a list of rows. *)
Abbreviation Board := (list (list Z)).

Definition BOARD_SIZE : Z := 8.

Definition KNIGHT_MOVES : list (Z * Z) :=
  [ (2, 1); (2, -1); (-2, 1); (-2, -1);
    (1, 2); (1, -2); (-1, 2); (-1, -2) ].

(** [[[0 for _ in range(BOARD_SIZE)] for _ in range(BOARD_SIZE)]]: every row
    is a list of its own. *)
Definition empty_board : Board :=
  replicate (Z.to_nat BOARD_SIZE) (replicate (Z.to_nat BOARD_SIZE) 0).

(** [board[x][y]] for non-negative indices.  Python raises IndexError past
    the end of a list; every read of the program is guarded by the bounds
    test of [is_valid_move], so on a BOARD_SIZE x BOARD_SIZE board the
    default below is never produced (lemma [cell_in_range]). *)
Definition cell (board : Board) (x y : Z) : Z :=
  match board !! Z.to_nat x with
  | Some row => default 0 (row !! Z.to_nat y)
  | None => 0
  end.

(** [board[x][y] = v]: the row object is updated in place.  Past the end of
    a list Python raises IndexError; the program only writes to cells
    returned by [get_valid_moves] and to the start cell. *)
Definition set_cell (board : Board) (x y : Z) (v : Z) : Board :=
  match board !! Z.to_nat x with
  | Some row => <[Z.to_nat x := <[Z.to_nat y := v]> row]> board
  | None => board
  end.

(** ** Move generator *)

Definition is_valid_move (x y : Z) (board : Board) : bool :=
  (0 <=? x) && (x <? BOARD_SIZE) &&
  (0 <=? y) && (y <? BOARD_SIZE) &&
  (cell board x y =? 0).

Definition get_valid_moves (x y : Z) (board : Board) : list Pos :=
  foldr (fun '(dx, dy) valid_moves =>
           let new_x := x + dx in
           let new_y := y + dy in
           if is_valid_move new_x new_y board
           then (new_x, new_y) :: valid_moves
           else valid_moves)
        [] KNIGHT_MOVES.

Definition count_onward_moves (x y : Z) (board : Board) : Z :=
  Z.of_nat (length (get_valid_moves x y board)).

(** [list.sort(key=...)] is a stable sort: elements with equal keys keep
    their relative order.  Insertion from the right end gives that. *)
Section StableSort.
Context {A : Type} (key : A -> Z).

Fixpoint insert_by_key (a : A) (l : list A) : list A :=
  match l with
  | [] => [a]
  | b :: l' =>
      if key a <=? key b then a :: b :: l' else b :: insert_by_key a l'
  end.

Fixpoint sort_by_key (l : list A) : list A :=
  match l with
  | [] => []
  | a :: l' => insert_by_key a (sort_by_key l')
  end.

End StableSort.

Definition get_sorted_moves (x y : Z) (board : Board) : list Pos :=
  let valid_moves := get_valid_moves x y board in
  sort_by_key (fun move => count_onward_moves (fst move) (snd move) board)
              valid_moves.

(** ** Closure check *)

Definition is_closed_tour (current_pos start_pos : Pos) : bool :=
  let '(x, y) := current_pos in
  let '(start_x, start_y) := start_pos in
  existsb (fun '(dx, dy) => (x + dx =? start_x) && (y + dy =? start_y))
          KNIGHT_MOVES.

Definition total_squares : Z := BOARD_SIZE * BOARD_SIZE.

(** ** Backtracking search *)

Section Backtracking.
Variable startingPosition : Pos.

(** The [for next_x, next_y in sorted_moves] loop of [backtrack], with the
    recursive call abstracted as [rec]: mark, recurse, return at the first
    success, unmark otherwise. *)
Fixpoint try_moves (rec : Z -> Z -> Board -> option (bool * Board))
         (move_count : Z) (moves : list Pos) (board : Board)
  : option (bool * Board) :=
  match moves with
  | [] => Some (false, board)
  | (next_x, next_y) :: rest =>
      let board1 := set_cell board next_x next_y (move_count + 1) in
      match rec next_x next_y board1 with
      | None => None
      | Some (true, board2) => Some (true, board2)
      | Some (false, board2) =>
          try_moves rec move_count rest (set_cell board2 next_x next_y 0)
      end
  end.

(** [backtrack(x, y, move_count)] on the board of the enclosing call.  The
    recursion depth is bounded by [fuel]; [None] means the bound was hit. *)
Fixpoint backtrack (fuel : nat) (x y move_count : Z) (board : Board)
  : option (bool * Board) :=
  match fuel with
  | O => None
  | S fuel' =>
      if move_count =? total_squares
      then Some (is_closed_tour (x, y) startingPosition, board)
      else
        let sorted_moves := get_sorted_moves x y board in
        try_moves (fun nx ny b => backtrack fuel' nx ny (move_count + 1) b)
                  move_count sorted_moves board
  end.
End Backtracking.

Definition KnightsTourBacktracking_fuel (fuel : nat) (startingPosition : Pos)
  : option (bool * Board) :=
  let '(x, y) := startingPosition in
  let board := set_cell empty_board x y 1 in
  backtrack startingPosition fuel x y 1 board.

Definition KnightsTourBacktracking (startingPosition : Pos)
  : option (bool * Board) :=
  KnightsTourBacktracking_fuel (Z.to_nat total_squares) startingPosition.

(** ** Las Vegas search *)

(** The loop state: the board, the current cell, [move_count], and the number
    of draws made so far from the random source. *)
Record lv_state : Type := LvState {
  lv_board : Board;
  lv_current : Pos;
  lv_move_count : Z;
  lv_draws : nat
}.

Section LasVegas.
(** The random source: [rnd k] is the index produced by the k-th draw.
    [random.choice(seq)] returns [seq[i]] for an index [i] below
    [len(seq)]; any element can be returned. *)
Variable rnd : nat -> nat.

Definition random_choice (k : nat) (valid_moves : list Pos) : Pos :=
  default (0, 0) (valid_moves !! (rnd k `mod` length valid_moves)%nat).

(** One iteration of the [while] loop; [None] when the loop is left, by
    its condition or by [break]. *)
Definition lv_step (st : lv_state) : option lv_state :=
  let '(current_x, current_y) := lv_current st in
  if lv_move_count st <? total_squares then
    let valid_moves := get_valid_moves current_x current_y (lv_board st) in
    match valid_moves with
    | [] => None
    | _ :: _ =>
        let '(next_x, next_y) := random_choice (lv_draws st) valid_moves in
        let move_count := lv_move_count st + 1 in
        Some (LvState (set_cell (lv_board st) next_x next_y move_count)
                      (next_x, next_y) move_count (S (lv_draws st)))
    end
  else None.

(** The loop, at most [fuel] tests of its condition. *)
Fixpoint lv_loop (fuel : nat) (st : lv_state) : option lv_state :=
  match fuel with
  | O => None
  | S fuel' =>
      match lv_step st with
      | None => Some st
      | Some st' => lv_loop fuel' st'
      end
  end.

(** The state after at most [n] iterations. *)
Fixpoint lv_iter (n : nat) (st : lv_state) : lv_state :=
  match n with
  | O => st
  | S n' =>
      match lv_step st with
      | None => st
      | Some st' => lv_iter n' st'
      end
  end.

Definition lv_init (startingPosition : Pos) : lv_state :=
  let '(x, y) := startingPosition in
  let move_count := 1 in
  LvState (set_cell empty_board x y move_count) (x, y) move_count 0.

Definition KnightsTourLasVegas_fuel (fuel : nat) (startingPosition : Pos)
  : option (bool * Board) :=
  match lv_loop fuel (lv_init startingPosition) with
  | None => None
  | Some st =>
      let success :=
        (lv_move_count st =? total_squares) &&
        is_closed_tour (lv_current st) startingPosition in
      Some (success, lv_board st)
  end.

Definition KnightsTourLasVegas (startingPosition : Pos)
  : option (bool * Board) :=
  KnightsTourLasVegas_fuel (Z.to_nat total_squares) startingPosition.
End LasVegas.

(** ** The backtracking search with a record of its intermediate states *)

(** A snapshot: the cells of the active [backtrack] calls, innermost first,
    and the board at that moment. *)
Abbreviation Snapshot := (list (Z * Z) * list (list Z))%type.

Section BacktrackingLog.
Variable startingPosition : Pos.

(** [try_moves] and [backtrack] again, computing the same result and also
    listing a snapshot on entry to every call (the cell just marked is the
    new innermost frame) and after every unmarking. *)
Fixpoint try_moves_log
         (rec : Z -> Z -> Board -> option (bool * Board * list Snapshot))
         (stack : list Pos) (move_count : Z) (moves : list Pos)
         (board : Board) : option (bool * Board * list Snapshot) :=
  match moves with
  | [] => Some (false, board, [])
  | (next_x, next_y) :: rest =>
      let board1 := set_cell board next_x next_y (move_count + 1) in
      match rec next_x next_y board1 with
      | None => None
      | Some (true, board2, log) => Some (true, board2, log)
      | Some (false, board2, log) =>
          let board3 := set_cell board2 next_x next_y 0 in
          match try_moves_log rec stack move_count rest board3 with
          | None => None
          | Some (ok, board4, log') =>
              Some (ok, board4, log ++ (stack, board3) :: log')
          end
      end
  end.

Fixpoint backtrack_log (fuel : nat) (callers : list Pos)
         (x y move_count : Z) (board : Board)
  : option (bool * Board * list Snapshot) :=
  match fuel with
  | O => None
  | S fuel' =>
      let stack := (x, y) :: callers in
      if move_count =? total_squares
      then Some (is_closed_tour (x, y) startingPosition, board,
                 [(stack, board)])
      else
        let sorted_moves := get_sorted_moves x y board in
        match try_moves_log
                (fun nx ny b =>
                   backtrack_log fuel' stack nx ny (move_count + 1) b)
                stack move_count sorted_moves board with
        | None => None
        | Some (ok, board', log) => Some (ok, board', (stack, board) :: log)
        end
  end.
End BacktrackingLog.

Definition KnightsTourBacktracking_log (startingPosition : Pos)
  : option (bool * Board * list Snapshot) :=
  let '(x, y) := startingPosition in
  let board := set_cell empty_board x y 1 in
  backtrack_log startingPosition (Z.to_nat total_squares) [] x y 1 board.

(** ** Specification vocabulary *)

Definition in_bounds (p : Pos) : Prop :=
  0 <= p.1 < BOARD_SIZE /\ 0 <= p.2 < BOARD_SIZE.

(** A board as the program allocates it: BOARD_SIZE rows of BOARD_SIZE
    cells. *)
Definition wf_board (b : Board) : Prop :=
  length b = Z.to_nat BOARD_SIZE /\
  Forall (fun row => length row = Z.to_nat BOARD_SIZE) b.

(** [q] is one knight offset away from [p]. *)
Definition knight_step (p q : Pos) : Prop :=
  exists d, d ∈ KNIGHT_MOVES /\ q = (p.1 + d.1, p.2 + d.2).

(** Consecutive cells of a stack (innermost first) are one knight offset
    apart, each reached from the one below it. *)
Inductive knight_chain : list Pos -> Prop :=
| knight_chain_nil : knight_chain []
| knight_chain_one c : knight_chain [c]
| knight_chain_cons c p s :
    knight_step p c -> knight_chain (p :: s) -> knight_chain (c :: p :: s).

(** The board obtained from the empty one by numbering the cells of a stack
    from its bottom: the bottom cell holds 1, the top one the stack's
    length. *)
Fixpoint mark_path (stack : list Pos) : Board :=
  match stack with
  | [] => empty_board
  | (x, y) :: s => set_cell (mark_path s) x y (Z.of_nat (length stack))
  end.

(** A stack of distinct in-bounds cells that starts at [start] and moves by
    knight offsets. *)
Record tour_stack (start : Pos) (stack : list Pos) : Prop := TourStack {
  ts_start : last stack = Some start;
  ts_nodup : NoDup stack;
  ts_bounds : Forall in_bounds stack;
  ts_chain : knight_chain stack
}.

(** The search invariant: the board is exactly the numbering of the current
    stack of cells. *)
Definition search_inv (start : Pos) (snap : Snapshot) : Prop :=
  tour_stack start snap.1 /\ snap.2 = mark_path snap.1.

(** [sum(1 for row in board for cell in row if cell > 0)] *)
Definition count_positive (b : Board) : nat :=
  length (filter (fun v => 0 < v) (concat b)).

Definition count_unvisited (b : Board) : nat :=
  length (filter (fun v => v = 0) (concat b)).

(** The first-solution board of the search from (0, 0). *)
Definition tour_from_origin : Board :=
  [[1; 50; 15; 32; 61; 28; 13; 30]; [16; 33; 64; 55; 14; 31; 60; 27];
   [51; 2; 49; 44; 57; 62; 29; 12]; [34; 17; 56; 63; 54; 47; 26; 59];
   [3; 52; 45; 48; 43; 58; 11; 40]; [18; 35; 20; 53; 46; 41; 8; 25];
   [21; 4; 37; 42; 23; 6; 39; 10]; [36; 19; 22; 5; 38; 9; 24; 7]].

(** 1 when [v] is counted by [P], 0 otherwise. *)
Definition indicator (P : Z -> Prop) `{!forall v, Decision (P v)} (v : Z)
  : nat :=
  if decide (P v) then 1%nat else 0%nat.

(** Every candidate the loop of [backtrack] tries is a valid move on the
    board the candidates were computed from. *)
Definition candidates_of (b : Board) (moves : list Pos) : Prop :=
  forall c, c ∈ moves -> in_bounds c /\ cell b c.1 c.2 = 0.

(** [b] numbers a closed tour from [start] that extends the stack [base]. *)
Definition closed_tour_on (start : Pos) (base : list Pos) (b : Board) : Prop :=
  exists stack,
    tour_stack start stack /\ b = mark_path stack /\
    length stack = Z.to_nat total_squares /\
    base `suffix_of` stack /\
    exists c, head stack = Some c /\ is_closed_tour c start = true.

(** What a call of [backtrack] entered on the stack [stack] with board [b]
    guarantees about its result and about every state it passes through. *)
Definition call_ok (start : Pos) (stack : list Pos) (b : Board)
           (r : bool * Board * list Snapshot) : Prop :=
  Forall (search_inv start) r.2 /\
  (r.1.1 = true -> closed_tour_on start stack r.1.2) /\
  (r.1.1 = false -> r.1.2 = b).

(** The walk so far, as a stack of cells with the current cell on top. *)
Definition lv_inv (start : Pos) (st : lv_state) : Prop :=
  exists stack,
    tour_stack start stack /\
    head stack = Some (lv_current st) /\
    lv_board st = mark_path stack /\
    lv_move_count st = Z.of_nat (length stack) /\
    S (lv_draws st) = length stack.

(** Every cell of the grid. *)
Definition all_cells : list Pos :=
  seqZ 0 BOARD_SIZE ≫= fun x => (fun y => (x, y)) <$> seqZ 0 BOARD_SIZE.

(** The positive entries of [b] are the indices 1..m, each in one cell. *)
Definition each_index_once (b : Board) (m : Z) : Prop :=
  forall k, 1 <= k <= m ->
    exists c, (in_bounds c /\ cell b c.1 c.2 = k) /\
              forall c', in_bounds c' -> cell b c'.1 c'.2 = k -> c' = c.

Definition indices_within (b : Board) (m : Z) : Prop :=
  forall c, in_bounds c -> 0 <= cell b c.1 c.2 <= m.

(** The cell holding k+1 is one knight offset from the cell holding k. *)
Definition knight_path_on (b : Board) (m : Z) : Prop :=
  forall k c c', 1 <= k < m -> in_bounds c -> in_bounds c' ->
    cell b c.1 c.2 = k -> cell b c'.1 c'.2 = k + 1 -> knight_step c c'.

(** [b] holds exactly the move indices 1..m, along a knight path that
    begins at [start]. *)
Record path_board (start : Pos) (b : Board) (m : Z) : Prop := PathBoard {
  pb_wf : wf_board b;
  pb_within : indices_within b m;
  pb_once : each_index_once b m;
  pb_path : knight_path_on b m;
  pb_start : 1 <= m -> cell b start.1 start.2 = 1;
  pb_count : Z.of_nat (count_positive b) = m
}.


(** The board of the tour from (0, 0) one move before its end. *)
Definition tour_but_last : Board := set_cell tour_from_origin 1 2 0.

(** ** Further vocabulary *)

(** A closed tour from [start], as the stack of its cells (last visited
    cell first): all [total_squares] cells, and the closure check holds
    between the last visited cell and [start]. *)
Definition closed_tour_stack (start : Pos) (stack : list Pos) : Prop :=
  tour_stack start stack /\
  length stack = Z.to_nat total_squares /\
  exists c, head stack = Some c /\ is_closed_tour c start = true.

(** Where two stacks are put on top of each other, the bottom cell of the
    upper one is one knight offset from the top cell of the lower one. *)
Definition chain_joint (upper lower : list Pos) : Prop :=
  match last upper, head lower with
  | Some c, Some p => knight_step p c
  | _, _ => True
  end.

(** A random source that follows [rnd] for the first [n] draws and
    produces [i] afterwards. *)
Definition rnd_then (rnd : nat -> nat) (n i : nat) : nat -> nat :=
  fun k => if (k <? n)%nat then rnd k else i.

(** ** The visited-cell counter of [display_board] *)

(** [sum(1 for i in range(BOARD_SIZE) for j in range(BOARD_SIZE)
         if board[i][j] > 0)]: the cells are read by index. *)
Definition visited_count (board : Board) : Z :=
  Z.of_nat (length (filter (fun c : Pos => 0 < cell board c.1 c.2)
                           (seqZ 0 BOARD_SIZE ≫= fun i =>
                              (fun j => (i, j)) <$> seqZ 0 BOARD_SIZE))).

(** ** The batch test [run_success_test] *)

(** What a run of the test ends with: it returns, or an integer or float
    division by zero raises.  [OutOfFuel] is the bounded model of a search
    giving no answer. *)
Inductive outcome (A : Type) : Type :=
| Returned (a : A)
| ZeroDivisionError
| OutOfFuel.
Arguments Returned {A} a.
Arguments ZeroDivisionError {A}.
Arguments OutOfFuel {A}.

#[global] Instance outcome_bind : MBind outcome := fun A B k m =>
  match m with
  | Returned a => k a
  | ZeroDivisionError => ZeroDivisionError
  | OutOfFuel => OutOfFuel
  end.

Section SuccessTest.
(** The random source of the i-th Las Vegas run: the global generator's
    sequence between two runs. *)
Variable rnds : nat -> nat -> nat.
Variable start_pos : Pos.

(** The first loop, over [range(runs)]: the progress test
    [(i + 1) % (runs // 10) == 0] comes first and raises when
    [runs // 10] is 0; the values [i + 1] it prints are collected. *)
Fixpoint lv_test_loop (runs : Z) (indices : list Z)
         (lv_success_count : Z) (progress : list Z)
  : outcome (Z * list Z) :=
  match indices with
  | [] => Returned (lv_success_count, progress)
  | i :: rest =>
      if runs `div` 10 =? 0 then ZeroDivisionError
      else
        let progress' :=
          if (i + 1) `mod` (runs `div` 10) =? 0
          then progress ++ [i + 1] else progress in
        match KnightsTourLasVegas (rnds (Z.to_nat i)) start_pos with
        | None => OutOfFuel
        | Some (success, _) =>
            lv_test_loop runs rest
              (if success then lv_success_count + 1 else lv_success_count)
              progress'
        end
  end.

(** The second loop, over [range(bt_test_runs)]. *)
Fixpoint bt_test_loop (indices : list Z) (bt_success_count : Z)
  : outcome Z :=
  match indices with
  | [] => Returned bt_success_count
  | _ :: rest =>
      match KnightsTourBacktracking start_pos with
      | None => OutOfFuel
      | Some (success, _) =>
          bt_test_loop rest
            (if success then bt_success_count + 1 else bt_success_count)
      end
  end.

(** [run_success_test(runs, start_pos)], as the counters it computes and
    the progress values it prints.  The two rates are floats; of
    [lv_success_count / runs] only the division by zero is kept. *)
Definition run_success_test (runs : Z) : outcome (Z * list Z * Z) :=
  '(lv_success_count, progress) ←
     lv_test_loop runs (seqZ 0 runs) 0 [];
  if runs =? 0 then ZeroDivisionError
  else
    let bt_test_runs := 5 in
    bt_success_count ← bt_test_loop (seqZ 0 bt_test_runs) 0;
    Returned (lv_success_count, progress, bt_success_count).
End SuccessTest.

(** ** The batch test with a record of what it does *)

(** What [run_success_test] does, in order: a progress line printed, a call
    of [KnightsTourLasVegas] (the i-th of the first loop), a call of
    [KnightsTourBacktracking] (the i-th of the second loop). *)
Inductive test_event : Type :=
| ProgressPrinted (k : Z)
| LasVegasRun (i : Z)
| BacktrackingRun (i : Z).

(** Where a division by zero is raised: at the progress test
    [(i + 1) % (runs // 10)] of iteration [i] of the first loop, or at the
    rate [lv_success_count / runs] after it. *)
Inductive raise_site : Type :=
| AtProgressTest (i : Z)
| AtLasVegasRate.

Inductive traced (A : Type) : Type :=
| TracedReturned (a : A)
| TracedRaised (site : raise_site)
| TracedOutOfFuel.
Arguments TracedReturned {A} a.
Arguments TracedRaised {A} site.
Arguments TracedOutOfFuel {A}.

(** Forgetting where the error was raised. *)
Definition untraced {A : Type} (r : traced A) : outcome A :=
  match r with
  | TracedReturned a => Returned a
  | TracedRaised _ => ZeroDivisionError
  | TracedOutOfFuel => OutOfFuel
  end.

Section SuccessTestLog.
Variable rnds : nat -> nat -> nat.
Variable start_pos : Pos.

(** [lv_test_loop] again, also listing the events in the order the loop
    body produces them (progress test, then the search) and the site of a
    raise. *)
Fixpoint lv_test_loop_log (runs : Z) (indices : list Z)
         (lv_success_count : Z) (progress : list Z) (trace : list test_event)
  : list test_event * traced (Z * list Z) :=
  match indices with
  | [] => (trace, TracedReturned (lv_success_count, progress))
  | i :: rest =>
      if runs `div` 10 =? 0 then (trace, TracedRaised (AtProgressTest i))
      else
        let printed := (i + 1) `mod` (runs `div` 10) =? 0 in
        let progress' := if printed then progress ++ [i + 1] else progress in
        let trace1 :=
          if printed then trace ++ [ProgressPrinted (i + 1)] else trace in
        let trace2 := trace1 ++ [LasVegasRun i] in
        match KnightsTourLasVegas (rnds (Z.to_nat i)) start_pos with
        | None => (trace2, TracedOutOfFuel)
        | Some (success, _) =>
            lv_test_loop_log runs rest
              (if success then lv_success_count + 1 else lv_success_count)
              progress' trace2
        end
  end.

Fixpoint bt_test_loop_log (indices : list Z) (bt_success_count : Z)
         (trace : list test_event) : list test_event * traced Z :=
  match indices with
  | [] => (trace, TracedReturned bt_success_count)
  | i :: rest =>
      let trace1 := trace ++ [BacktrackingRun i] in
      match KnightsTourBacktracking start_pos with
      | None => (trace1, TracedOutOfFuel)
      | Some (success, _) =>
          bt_test_loop_log rest
            (if success then bt_success_count + 1 else bt_success_count)
            trace1
      end
  end.

Definition run_success_test_log (runs : Z)
  : list test_event * traced (Z * list Z * Z) :=
  match lv_test_loop_log runs (seqZ 0 runs) 0 [] [] with
  | (trace, TracedReturned (lv_success_count, progress)) =>
      if runs =? 0 then (trace, TracedRaised AtLasVegasRate)
      else
        let bt_test_runs := 5 in
        match bt_test_loop_log (seqZ 0 bt_test_runs) 0 trace with
        | (trace', TracedReturned bt_success_count) =>
            (trace',
             TracedReturned (lv_success_count, progress, bt_success_count))
        | (trace', TracedRaised site) => (trace', TracedRaised site)
        | (trace', TracedOutOfFuel) => (trace', TracedOutOfFuel)
        end
  | (trace, TracedRaised site) => (trace, TracedRaised site)
  | (trace, TracedOutOfFuel) => (trace, TracedOutOfFuel)
  end.
End SuccessTestLog.

(** * Properties *)

(** ** Reading and writing cells *)

(** Bounds of a concrete cell. *)
Ltac concrete_in_bounds := unfold in_bounds, BOARD_SIZE; simpl; lia.

Lemma cell_in_range (b : Board) (x y : Z) :
  wf_board b -> in_bounds (x, y) ->
  exists row v, b !! Z.to_nat x = Some row /\ row !! Z.to_nat y = Some v /\
                cell b x y = v.
Proof.
  intros [Hlen Hrows] [[Hx0 Hx1] [Hy0 Hy1]]; simpl in *.
  destruct (lookup_lt_is_Some_2 b (Z.to_nat x)) as [row Hrow]; [lia|].
  pose proof (Forall_lookup_1 _ _ _ _ Hrows Hrow) as Hl; simpl in Hl.
  destruct (lookup_lt_is_Some_2 row (Z.to_nat y)) as [v Hv]; [lia|].
  exists row, v. unfold cell. rewrite Hrow, Hv. auto.
Qed.

Lemma wf_empty_board : wf_board empty_board.
Proof.
  split; [apply length_replicate|].
  apply Forall_replicate, length_replicate.
Qed.

Lemma wf_set_cell (b : Board) (x y v : Z) :
  wf_board b -> wf_board (set_cell b x y v).
Proof.
  intros [Hlen Hrows]. unfold set_cell.
  destruct (b !! Z.to_nat x) as [row|] eqn:Hrow; [|by split].
  split; [by rewrite length_insert|].
  apply Forall_insert; [done|].
  rewrite length_insert. exact (Forall_lookup_1 _ _ _ _ Hrows Hrow).
Qed.

Lemma cell_set_cell_eq (b : Board) (x y v : Z) :
  wf_board b -> in_bounds (x, y) -> cell (set_cell b x y v) x y = v.
Proof.
  intros Hwf Hin.
  destruct (cell_in_range b x y Hwf Hin) as (row & w & Hrow & Hw & _).
  unfold cell, set_cell. rewrite Hrow.
  rewrite list_lookup_insert_eq by (by eapply lookup_lt_Some).
  rewrite list_lookup_insert_eq by (by eapply lookup_lt_Some).
  done.
Qed.

Lemma cell_set_cell_ne (b : Board) (x y v x' y' : Z) :
  0 <= x -> 0 <= y -> 0 <= x' -> 0 <= y' -> (x, y) <> (x', y') ->
  cell (set_cell b x y v) x' y' = cell b x' y'.
Proof.
  intros Hx Hy Hx' Hy' Hne. unfold cell, set_cell.
  destruct (b !! Z.to_nat x) as [row|] eqn:Hrow; [|done].
  destruct (decide (x = x')) as [<-|Hxx].
  - rewrite list_lookup_insert_eq by (by eapply lookup_lt_Some).
    rewrite Hrow. rewrite list_lookup_insert_ne; [done|].
    intros Heq. apply Hne. f_equal. lia.
  - rewrite list_lookup_insert_ne; [done|]. lia.
Qed.

Lemma set_cell_set_cell (b : Board) (x y v w : Z) :
  set_cell (set_cell b x y v) x y w = set_cell b x y w.
Proof.
  unfold set_cell.
  destruct (b !! Z.to_nat x) as [row|] eqn:Hrow; [|by rewrite Hrow].
  rewrite list_lookup_insert_eq by (by eapply lookup_lt_Some).
  by rewrite !list_insert_insert_eq.
Qed.

Lemma set_cell_same (b : Board) (x y : Z) :
  set_cell b x y (cell b x y) = b.
Proof.
  unfold set_cell, cell.
  destruct (b !! Z.to_nat x) as [row|] eqn:Hrow; [|done].
  apply list_insert_id. rewrite Hrow. f_equal.
  destruct (row !! Z.to_nat y) as [w|] eqn:Hw; simpl.
  - symmetry. by apply list_insert_id.
  - symmetry. apply list_insert_ge. by apply lookup_ge_None.
Qed.

(** Marking an unvisited cell and unmarking it gives the board back. *)
Lemma unmark_mark (b : Board) (x y v : Z) :
  cell b x y = 0 -> set_cell (set_cell b x y v) x y 0 = b.
Proof.
  intros H0. rewrite set_cell_set_cell. rewrite <- H0 at 1.
  apply set_cell_same.
Qed.

(** ** Knight offsets, the closure check and the move generator *)

Lemma is_valid_move_spec (x y : Z) (b : Board) :
  is_valid_move x y b = true <-> in_bounds (x, y) /\ cell b x y = 0.
Proof.
  unfold is_valid_move, in_bounds; simpl.
  rewrite !andb_true_iff, !Z.leb_le, !Z.ltb_lt, Z.eqb_eq. tauto.
Qed.

Lemma is_closed_tour_spec (p q : Pos) :
  is_closed_tour p q = true <-> knight_step p q.
Proof.
  destruct p as [x y], q as [sx sy]. unfold is_closed_tour, knight_step.
  rewrite existsb_exists. split.
  - intros ([dx dy] & Hin & Heq). exists (dx, dy).
    apply andb_true_iff in Heq as [Hx Hy].
    apply Z.eqb_eq in Hx, Hy. simpl. subst.
    split; [by apply list_elem_of_In|done].
  - intros ([dx dy] & Hin & Heq). exists (dx, dy). simpl in Heq.
    inversion Heq; subst. split; [by apply list_elem_of_In|].
    by rewrite !Z.eqb_refl.
Qed.

Lemma knight_offset_nonzero (d : Z * Z) :
  d ∈ KNIGHT_MOVES -> d <> (0, 0).
Proof.
  unfold KNIGHT_MOVES. rewrite !elem_of_cons, elem_of_nil.
  intros H Hd. subst d. intuition congruence.
Qed.

Lemma knight_step_irrefl (p : Pos) : ~ knight_step p p.
Proof.
  intros ([dx dy] & Hin & Heq). apply knight_offset_nonzero in Hin.
  destruct p as [x y]; simpl in Heq. apply Hin.
  inversion Heq. f_equal; lia.
Qed.

(** The loop of [get_valid_moves] keeps, in the order of [KNIGHT_MOVES], the
    destinations that pass [is_valid_move]. *)
Lemma get_valid_moves_filter (x y : Z) (b : Board) :
  get_valid_moves x y b =
  filter (fun c => is_valid_move c.1 c.2 b = true)
         (map (fun d => (x + d.1, y + d.2)) KNIGHT_MOVES).
Proof.
  unfold get_valid_moves. induction KNIGHT_MOVES as [|[dx dy] l IH]; [done|].
  simpl. rewrite filter_cons. simpl. rewrite IH.
  destruct (is_valid_move (x + dx) (y + dy) b) eqn:Hv.
  - by rewrite decide_True.
  - by rewrite decide_False.
Qed.

Lemma elem_of_get_valid_moves (c : Pos) (x y : Z) (b : Board) :
  c ∈ get_valid_moves x y b <->
  knight_step (x, y) c /\ in_bounds c /\ cell b c.1 c.2 = 0.
Proof.
  rewrite get_valid_moves_filter, list_elem_of_filter, list_elem_of_fmap.
  destruct c as [cx cy]. rewrite is_valid_move_spec. unfold knight_step.
  simpl. split.
  - intros (Hv & d & Heq & Hd). split; [|done]. by exists d.
  - intros ((d & Hd & Heq) & Hv). split; [done|]. by exists d.
Qed.

Lemma filter_ext_elem {A : Type} (P Q : A -> Prop)
      `{!forall a, Decision (P a), !forall a, Decision (Q a)} (l : list A) :
  (forall a, a ∈ l -> (P a <-> Q a)) -> filter P l = filter Q l.
Proof.
  induction l as [|a l IH]; intros Hext; [done|].
  rewrite !filter_cons, IH by (intros; apply Hext; by right).
  pose proof (Hext a (list_elem_of_here a l)).
  repeat case_decide; tauto.
Qed.



(** ** The stable sort *)

Section StableSortFacts.
Context {A : Type} (key : A -> Z).

Lemma insert_by_key_perm (a : A) (l : list A) :
  insert_by_key key a l ≡ₚ a :: l.
Proof.
  induction l as [|b l IH]; simpl; [done|].
  destruct (key a <=? key b); [done|].
  rewrite IH. apply Permutation_swap.
Qed.

Lemma sort_by_key_perm (l : list A) : sort_by_key key l ≡ₚ l.
Proof.
  induction l as [|a l IH]; simpl; [done|].
  by rewrite insert_by_key_perm, IH.
Qed.





End StableSortFacts.

Lemma elem_of_get_sorted_moves (c : Pos) (x y : Z) (b : Board) :
  c ∈ get_sorted_moves x y b <-> c ∈ get_valid_moves x y b.
Proof. unfold get_sorted_moves. by rewrite sort_by_key_perm. Qed.

(** ** Counting cells *)

Section Counting.
Context (P : Z -> Prop) `{!forall v, Decision (P v)}.


Lemma filter_insert_length (l : list Z) (i : nat) (old v : Z) :
  l !! i = Some old ->
  (length (filter P (<[i:=v]> l)) + indicator P old =
   length (filter P l) + indicator P v)%nat.
Proof.
  intros Hold.
  rewrite insert_take_drop by (by eapply lookup_lt_Some).
  rewrite <- (take_drop_middle l i old Hold) at 3.
  rewrite !filter_app, !filter_cons, !length_app. unfold indicator.
  repeat case_decide; simpl; lia.
Qed.

Lemma count_set_cell (b : Board) (x y v : Z) :
  wf_board b -> in_bounds (x, y) ->
  (length (filter P (concat (set_cell b x y v))) + indicator P (cell b x y) =
   length (filter P (concat b)) + indicator P v)%nat.
Proof.
  intros Hwf Hin.
  destruct (cell_in_range b x y Hwf Hin) as (row & old & Hrow & Hold & ->).
  unfold set_cell. rewrite Hrow.
  rewrite insert_take_drop by (by eapply lookup_lt_Some).
  rewrite <- (take_drop_middle b _ row Hrow) at 3.
  rewrite !concat_app, !concat_cons, !filter_app, !length_app.
  pose proof (filter_insert_length row (Z.to_nat y) old v Hold). lia.
Qed.
End Counting.

Lemma count_unvisited_mark (b : Board) (x y v : Z) :
  wf_board b -> in_bounds (x, y) -> cell b x y = 0 -> v <> 0 ->
  (count_unvisited (set_cell b x y v) + 1 = count_unvisited b)%nat.
Proof.
  intros Hwf Hin H0 Hv. unfold count_unvisited.
  pose proof (count_set_cell (fun v => v = 0) b x y v Hwf Hin) as H.
  unfold indicator in H. rewrite H0 in H.
  rewrite decide_True in H by done. rewrite decide_False in H by done. lia.
Qed.

Lemma count_positive_mark (b : Board) (x y v : Z) :
  wf_board b -> in_bounds (x, y) -> cell b x y = 0 -> 0 < v ->
  count_positive (set_cell b x y v) = S (count_positive b).
Proof.
  intros Hwf Hin H0 Hv. unfold count_positive.
  pose proof (count_set_cell (fun v => 0 < v) b x y v Hwf Hin) as H.
  unfold indicator in H. rewrite H0 in H.
  rewrite decide_False in H by lia. rewrite decide_True in H by done. lia.
Qed.

(** ** Boards that number a stack of cells *)

Lemma cell_empty_board (x y : Z) : cell empty_board x y = 0.
Proof.
  unfold cell, empty_board.
  destruct (replicate _ _ !! Z.to_nat x) as [row|] eqn:Hrow; [|done].
  apply lookup_replicate_1 in Hrow as [-> _].
  destruct (replicate _ _ !! Z.to_nat y) as [v|] eqn:Hv; [|done].
  by apply lookup_replicate_1 in Hv as [-> _].
Qed.

Lemma wf_mark_path (stack : list Pos) : wf_board (mark_path stack).
Proof.
  induction stack as [|[x y] s IH]; [apply wf_empty_board|].
  by apply wf_set_cell.
Qed.

Lemma cell_mark_path_fresh (stack : list Pos) (c : Pos) :
  Forall in_bounds stack -> in_bounds c -> c ∉ stack ->
  cell (mark_path stack) c.1 c.2 = 0.
Proof.
  induction stack as [|[x y] s IH]; intros Hb Hc Hnotin.
  - apply cell_empty_board.
  - apply Forall_cons in Hb as [[Hx Hy] Hb].
    apply not_elem_of_cons in Hnotin as [Hne Hnotin].
    destruct c as [cx cy], Hc as [Hcx Hcy]. simpl in *.
    rewrite cell_set_cell_ne by (try lia; congruence).
    by apply (IH Hb).
Qed.

Lemma cell_mark_path_lookup (stack : list Pos) (i : nat) (c : Pos) :
  NoDup stack -> Forall in_bounds stack -> stack !! i = Some c ->
  cell (mark_path stack) c.1 c.2 = Z.of_nat (length stack - i).
Proof.
  revert i. induction stack as [|[x y] s IH]; intros i Hnd Hb Hi; [done|].
  apply NoDup_cons in Hnd as [Hnotin Hnd].
  apply Forall_cons in Hb as [Hxy Hb].
  destruct i as [|j]; simpl in Hi.
  - inversion Hi; subst c. simpl mark_path. simpl fst. simpl snd.
    rewrite cell_set_cell_eq; [done|apply wf_mark_path|done].
  - assert (c ∈ s) as Hc by (by eapply list_elem_of_lookup_2).
    assert (in_bounds c) as [Hcx Hcy]
      by (by eapply (proj1 (Forall_forall _ _) Hb)).
    destruct c as [cx cy], Hxy as [Hx Hy]. simpl in *.
    rewrite cell_set_cell_ne by (try lia; intros Heq; congruence).
    by rewrite (IH j Hnd Hb Hi).
Qed.

Lemma cell_mark_path_elem (stack : list Pos) (c : Pos) :
  NoDup stack -> Forall in_bounds stack -> c ∈ stack ->
  1 <= cell (mark_path stack) c.1 c.2 <= Z.of_nat (length stack).
Proof.
  intros Hnd Hb Hc. apply list_elem_of_lookup_1 in Hc as [i Hi].
  rewrite (cell_mark_path_lookup stack i c Hnd Hb Hi).
  apply lookup_lt_Some in Hi. lia.
Qed.

Lemma count_positive_mark_path (stack : list Pos) :
  NoDup stack -> Forall in_bounds stack ->
  count_positive (mark_path stack) = length stack.
Proof.
  induction stack as [|[x y] s IH]; intros Hnd Hb.
  - vm_compute. reflexivity.
  - apply NoDup_cons in Hnd as [Hnotin Hnd].
    apply Forall_cons in Hb as [Hxy Hb]. simpl mark_path.
    rewrite count_positive_mark; [by rewrite IH| apply wf_mark_path | done | | lia].
    by apply (cell_mark_path_fresh s (x, y)).
Qed.

Lemma count_unvisited_mark_path (stack : list Pos) :
  NoDup stack -> Forall in_bounds stack ->
  (count_unvisited (mark_path stack) + length stack =
   Z.to_nat total_squares)%nat.
Proof.
  induction stack as [|[x y] s IH]; intros Hnd Hb.
  - vm_compute. reflexivity.
  - apply NoDup_cons in Hnd as [Hnotin Hnd].
    apply Forall_cons in Hb as [Hxy Hb]. specialize (IH Hnd Hb).
    simpl mark_path.
    pose proof (count_unvisited_mark (mark_path s) x y
                  (Z.of_nat (length ((x, y) :: s))) (wf_mark_path s) Hxy
                  (cell_mark_path_fresh s (x, y) Hb Hxy Hnotin)) as H.
    simpl length in *. lia.
Qed.

(** ** The backtracking search *)

Section BacktrackFacts.
Variable start : Pos.

Lemma candidates_sorted (x y : Z) (b : Board) :
  candidates_of b (get_sorted_moves x y b).
Proof.
  intros c Hc. apply elem_of_get_sorted_moves in Hc.
  apply elem_of_get_valid_moves in Hc. tauto.
Qed.

Lemma candidates_tail (b : Board) (c : Pos) (moves : list Pos) :
  candidates_of b (c :: moves) -> candidates_of b moves.
Proof. intros H c' Hc'. apply H. by right. Qed.

(** *** The record of states does not change the result *)

Lemma try_moves_erase
      (rec : Z -> Z -> Board -> option (bool * Board))
      (rec_log : Z -> Z -> Board -> option (bool * Board * list Snapshot))
      (stack : list Pos) (mc : Z) (moves : list Pos) (b : Board) :
  (forall nx ny b1, rec nx ny b1 = fst <$> rec_log nx ny b1) ->
  try_moves rec mc moves b = fst <$> try_moves_log rec_log stack mc moves b.
Proof.
  intros Hrec. revert b.
  induction moves as [|[nx ny] rest IH]; intros b; simpl; [done|].
  rewrite Hrec.
  destruct (rec_log nx ny _) as [[[[] b2] log]|]; simpl; try done.
  rewrite IH. by destruct (try_moves_log _ _ _ _ _) as [[[ok b4] log']|].
Qed.

Lemma backtrack_erase (fuel : nat) (callers : list Pos)
      (x y mc : Z) (b : Board) :
  backtrack start fuel x y mc b =
  fst <$> backtrack_log start fuel callers x y mc b.
Proof.
  revert callers x y mc b.
  induction fuel as [|fuel IH]; intros callers x y mc b; simpl; [done|].
  destruct (mc =? total_squares); [done|].
  rewrite (try_moves_erase _
             (fun nx ny b1 =>
                backtrack_log start fuel ((x, y) :: callers) nx ny (mc + 1) b1)
             ((x, y) :: callers)) by (intros; apply IH).
  by destruct (try_moves_log _ _ _ _ _) as [[[ok b4] log']|].
Qed.

(** *** A failing call leaves the board as it found it *)

Lemma try_moves_failure
      (rec : Z -> Z -> Board -> option (bool * Board))
      (mc : Z) (moves : list Pos) (b b' : Board) :
  (forall nx ny b1 b2, rec nx ny b1 = Some (false, b2) -> b2 = b1) ->
  candidates_of b moves ->
  try_moves rec mc moves b = Some (false, b') -> b' = b.
Proof.
  intros Hrec. induction moves as [|[nx ny] rest IH]; simpl; intros Hc Hrun.
  - congruence.
  - destruct (rec nx ny _) as [[[] b2]|] eqn:Hcall; try done.
    apply Hrec in Hcall. subst b2.
    rewrite unmark_mark in Hrun by (apply (Hc (nx, ny)); by left).
    apply IH; [|done]. by eapply candidates_tail.
Qed.

Lemma backtrack_failure (fuel : nat) (x y mc : Z) (b b' : Board) :
  backtrack start fuel x y mc b = Some (false, b') -> b' = b.
Proof.
  revert x y mc b b'.
  induction fuel as [|fuel IH]; intros x y mc b b'; simpl; [done|].
  destruct (mc =? total_squares); [congruence|].
  apply try_moves_failure; [|apply candidates_sorted].
  intros nx ny b1 b2. apply IH.
Qed.

(** *** Termination: the depth of the recursion is bounded by the number
    of unvisited cells *)

Lemma try_moves_total
      (rec : Z -> Z -> Board -> option (bool * Board))
      (mc : Z) (moves : list Pos) (b : Board) :
  (forall nx ny b1 b2, rec nx ny b1 = Some (false, b2) -> b2 = b1) ->
  (forall c, c ∈ moves ->
             is_Some (rec c.1 c.2 (set_cell b c.1 c.2 (mc + 1)))) ->
  candidates_of b moves ->
  is_Some (try_moves rec mc moves b).
Proof.
  intros Hfail.
  induction moves as [|[nx ny] rest IH]; simpl; intros Hrec Hc; [done|].
  destruct (Hrec (nx, ny)) as [[[] b2] Hcall]; [by left| |];
    simpl in Hcall; rewrite Hcall; [done|].
  apply Hfail in Hcall. subst b2.
  rewrite unmark_mark by (apply (Hc (nx, ny)); by left).
  apply IH; [|by eapply candidates_tail].
  intros c Hin. apply Hrec. by right.
Qed.

Lemma backtrack_total (fuel : nat) (x y mc : Z) (b : Board) :
  wf_board b -> 0 <= mc -> (count_unvisited b < fuel)%nat ->
  is_Some (backtrack start fuel x y mc b).
Proof.
  revert x y mc b.
  induction fuel as [|fuel IH]; intros x y mc b Hwf Hmc Hfuel; simpl; [lia|].
  destruct (mc =? total_squares); [done|].
  apply try_moves_total.
  - intros nx ny b1 b2. apply backtrack_failure.
  - intros [cx cy] Hin.
    destruct (candidates_sorted x y b _ Hin) as [Hb H0]. simpl in *.
    apply IH; [by apply wf_set_cell|lia|].
    pose proof (count_unvisited_mark b cx cy (mc + 1) Hwf Hb H0). lia.
  - apply candidates_sorted.
Qed.
End BacktrackFacts.

(** ** The search invariant *)

Lemma mark_path_push (stack : list Pos) (x y mc : Z) :
  mc = Z.of_nat (length stack) ->
  set_cell (mark_path stack) x y (mc + 1) = mark_path ((x, y) :: stack).
Proof. intros ->. simpl mark_path. f_equal. simpl length. lia. Qed.

Lemma tour_stack_single (start : Pos) :
  in_bounds start -> tour_stack start [start].
Proof.
  intros Hb. split; [done| |by apply Forall_singleton|constructor].
  apply NoDup_singleton.
Qed.

Lemma tour_stack_push (start c : Pos) (x y : Z) (callers : list Pos) :
  tour_stack start ((x, y) :: callers) ->
  c ∈ get_valid_moves x y (mark_path ((x, y) :: callers)) ->
  tour_stack start (c :: (x, y) :: callers).
Proof.
  intros [Hlast Hnd Hb Hch] Hc.
  apply elem_of_get_valid_moves in Hc as (Hstep & Hcb & H0).
  split; [done| |by constructor|by constructor].
  apply NoDup_cons. split; [|done]. intros Hin.
  pose proof (cell_mark_path_elem _ c Hnd Hb Hin). lia.
Qed.

Section SearchInvariant.
Variable start : Pos.

Lemma try_moves_log_inv
      (rec : Z -> Z -> Board -> option (bool * Board * list Snapshot))
      (x y mc : Z) (callers moves : list Pos) (b : Board)
      (r : bool * Board * list Snapshot) :
  let stack := (x, y) :: callers in
  search_inv start (stack, b) ->
  mc = Z.of_nat (length stack) ->
  (forall nx ny b1 r1,
      search_inv start ((nx, ny) :: stack, b1) ->
      rec nx ny b1 = Some r1 -> call_ok start ((nx, ny) :: stack) b1 r1) ->
  (forall c, c ∈ moves -> c ∈ get_valid_moves x y b) ->
  try_moves_log rec stack mc moves b = Some r ->
  call_ok start stack b r.
Proof.
  intros stack [Hts Hb] Hmc Hrec. cbn [fst snd] in Hts, Hb.
  subst stack. set (stack := (x, y) :: callers) in *. subst b. revert r.
  induction moves as [|[nx ny] rest IH]; intros r Hmoves Hrun;
    cbn [try_moves_log] in Hrun.
  - inversion Hrun; subst r. by split; [constructor|split].
  - assert ((nx, ny) ∈ get_valid_moves x y (mark_path stack)) as Hc
        by (apply Hmoves; by left).
    assert (search_inv start ((nx, ny) :: stack,
                              set_cell (mark_path stack) nx ny (mc + 1)))
      as Hinv1.
    { split; cbn [fst snd].
      - by apply tour_stack_push.
      - by apply mark_path_push. }
    destruct (rec nx ny _) as [[[ok1 b2] log1]|] eqn:Hcall; [|done].
    destruct (Hrec _ _ _ _ Hinv1 Hcall) as (Hlog1 & Hyes & Hno).
    cbn [fst snd] in Hlog1, Hyes, Hno. destruct ok1.
    + inversion Hrun; subst r. split; [done|]. split; [|done].
      intros _. destruct (Hyes eq_refl) as (full & ? & ? & ? & Hsuf & ?).
      exists full. do 3 (split; [done|]). split; [|done].
      by eapply suffix_cons_l.
    + rewrite (Hno eq_refl) in Hrun.
      apply elem_of_get_valid_moves in Hc as (_ & _ & H0).
      cbn [fst snd] in H0. rewrite unmark_mark in Hrun by done.
      destruct (try_moves_log rec stack mc rest (mark_path stack))
        as [[[ok b4] log']|] eqn:Hrest; [|done].
      destruct (IH (ok, b4, log')) as (Hlog' & Hyes' & Hno');
        [intros; apply Hmoves; by right|done|].
      inversion Hrun; subst r. split; [|by split].
      simpl. apply Forall_app. split; [done|].
      constructor; [by split|done].
Qed.

Lemma backtrack_log_inv (fuel : nat) (callers : list Pos)
      (x y mc : Z) (b : Board) (r : bool * Board * list Snapshot) :
  let stack := (x, y) :: callers in
  search_inv start (stack, b) ->
  mc = Z.of_nat (length stack) ->
  backtrack_log start fuel callers x y mc b = Some r ->
  call_ok start stack b r.
Proof.
  revert callers x y mc b r.
  induction fuel as [|fuel IH]; intros callers x y mc b r stack Hinv Hmc Hrun;
    cbn [backtrack_log] in Hrun; [done|].
  destruct (mc =? total_squares) eqn:Hfull.
  - inversion Hrun; subst r. apply Z.eqb_eq in Hfull.
    split; [by constructor|]. split; [|done]. cbn [fst snd]. intros Hclosed.
    destruct Hinv as [Hts Hb]. exists stack.
    do 2 (split; [done|]). split; [lia|]. split; [done|]. by exists (x, y).
  - cbv zeta in Hrun. fold stack in Hrun.
    destruct (try_moves_log _ stack mc _ b) as [[[ok b'] log]|] eqn:Htry;
      [|done].
    inversion Hrun; subst r.
    apply (try_moves_log_inv _ x y mc callers _ b (ok, b', log)) in Htry
      as (Hlog & Hyes & Hno); try done.
    + split; [by constructor|by split].
    + intros nx ny b1 r1 Hinv1 Hcall.
      apply (IH stack nx ny (mc + 1) b1 r1 Hinv1); [|done].
      subst stack. cbn [length] in *. lia.
    + intros c. apply elem_of_get_sorted_moves.
Qed.
End SearchInvariant.

(** ** The Las Vegas walk *)

Section LasVegasFacts.
Variable rnd : nat -> nat.

Lemma random_choice_elem (k : nat) (moves : list Pos) :
  moves <> [] -> random_choice rnd k moves ∈ moves.
Proof.
  intros Hne. unfold random_choice.
  assert (length moves <> 0%nat) as Hlen by (by destruct moves).
  destruct (lookup_lt_is_Some_2 moves (rnd k `mod` length moves)%nat)
    as [c Hc]; [by apply Nat.mod_upper_bound|].
  rewrite Hc. simpl. by eapply list_elem_of_lookup_2.
Qed.

(** One iteration writes the next move index into one cell, and that cell
    is a valid move from the current one. *)
Lemma lv_step_inv (st st' : lv_state) :
  lv_step rnd st = Some st' ->
  exists c,
    c ∈ get_valid_moves (lv_current st).1 (lv_current st).2 (lv_board st) /\
    lv_move_count st < total_squares /\
    st' = LvState (set_cell (lv_board st) c.1 c.2 (lv_move_count st + 1))
                  c (lv_move_count st + 1) (S (lv_draws st)).
Proof.
  unfold lv_step. destruct st as [b [cx cy] mc k]; cbn [lv_current
    lv_board lv_move_count lv_draws fst snd].
  destruct (mc <? total_squares) eqn:Hlt; [|done].
  apply Z.ltb_lt in Hlt.
  destruct (get_valid_moves cx cy b) as [|m ms] eqn:Hmoves; [done|].
  pose proof (random_choice_elem k (m :: ms)) as Hin.
  destruct (random_choice rnd k (m :: ms)) as [nx ny].
  intros Hst. inversion Hst; subst st'. exists (nx, ny).
  split; [by apply Hin|done].
Qed.

Lemma lv_step_preserves_inv (start : Pos) (st st' : lv_state) :
  lv_inv start st -> lv_step rnd st = Some st' -> lv_inv start st'.
Proof.
  intros (stack & Hts & Hhd & Hb & Hmc & Hk) Hstep.
  apply lv_step_inv in Hstep as ([nx ny] & Hc & _ & ->).
  destruct stack as [|[x y] callers]; [done|].
  inversion Hhd as [Hcur]. rewrite <- Hcur, Hb in Hc. cbn [fst snd] in Hc.
  exists ((nx, ny) :: (x, y) :: callers).
  cbn [lv_current lv_board lv_move_count lv_draws fst snd].
  split; [by apply tour_stack_push|]. split; [done|].
  split; [rewrite Hb; by apply mark_path_push|].
  cbn [length] in *. lia.
Qed.

Lemma lv_init_inv (start : Pos) :
  in_bounds start -> lv_inv start (lv_init start).
Proof.
  intros Hin. exists [start]. destruct start as [x y].
  split; [by apply tour_stack_single|done].
Qed.

Lemma lv_iter_inv (start : Pos) (n : nat) (st : lv_state) :
  lv_inv start st -> lv_inv start (lv_iter rnd n st).
Proof.
  revert st. induction n as [|n IH]; intros st Hinv; simpl; [done|].
  destruct (lv_step rnd st) as [st'|] eqn:Hstep; [|done].
  apply IH. by eapply lv_step_preserves_inv.
Qed.

Lemma lv_iter_add (i j : nat) (st : lv_state) :
  lv_iter rnd (i + j) st = lv_iter rnd j (lv_iter rnd i st).
Proof.
  revert st. induction i as [|i IH]; intros st; simpl; [done|].
  destruct (lv_step rnd st) as [st'|] eqn:Hstep; [apply IH|].
  clear IH. induction j as [|j IHj]; simpl; [done|]. by rewrite Hstep.
Qed.

(** The loop returns the state reached when no further iteration runs. *)
Lemma lv_loop_iter (fuel : nat) (st st' : lv_state) :
  lv_loop rnd fuel st = Some st' ->
  st' = lv_iter rnd fuel st /\ lv_step rnd st' = None.
Proof.
  revert st. induction fuel as [|fuel IH]; intros st; simpl; [done|].
  destruct (lv_step rnd st) as [st1|] eqn:Hstep; [apply IH|].
  intros Hst; inversion Hst; subst st'. done.
Qed.

(** The loop stops within [total_squares - move_count] iterations, and
    each iteration makes one draw. *)
Lemma lv_loop_total (fuel : nat) (st : lv_state) :
  (Z.to_nat (total_squares - lv_move_count st) < fuel)%nat ->
  exists st',
    lv_loop rnd fuel st = Some st' /\
    Z.of_nat (lv_draws st') - Z.of_nat (lv_draws st) =
    lv_move_count st' - lv_move_count st /\
    lv_move_count st' <= Z.max total_squares (lv_move_count st).
Proof.
  revert st. induction fuel as [|fuel IH]; intros st Hfuel; simpl; [lia|].
  destruct (lv_step rnd st) as [st1|] eqn:Hstep.
  - apply lv_step_inv in Hstep as (c & _ & Hlt & ->).
    destruct (IH (LvState (set_cell (lv_board st) c.1 c.2
                                    (lv_move_count st + 1))
                          c (lv_move_count st + 1) (S (lv_draws st))))
      as (st' & Hrun & Hd & Hmc);
      cbn [lv_move_count lv_draws] in *; [lia|].
    exists st'. split; [done|]. lia.
  - exists st. split; [done|]. lia.
Qed.

(** A cell that holds a move index is never written again. *)
Lemma lv_step_keeps_marks (st st' : lv_state) (x y : Z) :
  lv_step rnd st = Some st' -> in_bounds (x, y) ->
  cell (lv_board st) x y <> 0 ->
  cell (lv_board st') x y = cell (lv_board st) x y.
Proof.
  intros Hstep [Hx Hy] Hpos. cbn [fst snd] in *.
  apply lv_step_inv in Hstep as ([nx ny] & Hc & _ & ->).
  apply elem_of_get_valid_moves in Hc as (_ & [Hnx Hny] & H0).
  cbn [fst snd lv_board] in *.
  apply cell_set_cell_ne; try lia. congruence.
Qed.

Lemma lv_iter_keeps_marks (n : nat) (st : lv_state) (x y : Z) :
  in_bounds (x, y) -> cell (lv_board st) x y <> 0 ->
  cell (lv_board (lv_iter rnd n st)) x y = cell (lv_board st) x y.
Proof.
  intros Hin. revert st. induction n as [|n IH]; intros st Hpos; simpl;
    [done|].
  destruct (lv_step rnd st) as [st'|] eqn:Hstep; [|done].
  pose proof (lv_step_keeps_marks st st' x y Hstep Hin Hpos) as Hkeep.
  rewrite IH; [done|]. by rewrite Hkeep.
Qed.
End LasVegasFacts.

(** ** What a numbered stack looks like as a board *)

Lemma elem_of_all_cells (c : Pos) : c ∈ all_cells <-> in_bounds c.
Proof.
  unfold all_cells, in_bounds. rewrite list_elem_of_bind. split.
  - intros (x & Hy & Hx). apply list_elem_of_fmap in Hy as (y & -> & Hy).
    apply elem_of_seqZ in Hx, Hy. simpl. lia.
  - intros [Hx Hy]. exists c.1. rewrite list_elem_of_fmap, !elem_of_seqZ.
    split; [|lia]. exists c.2. split; [by destruct c|].
    apply elem_of_seqZ. lia.
Qed.

Lemma NoDup_all_cells : NoDup all_cells.
Proof. apply (bool_decide_unpack _). by vm_compute. Qed.

Lemma length_all_cells : length all_cells = Z.to_nat total_squares.
Proof. by vm_compute. Qed.

Lemma tour_stack_length (start : Pos) (stack : list Pos) :
  tour_stack start stack -> (length stack <= Z.to_nat total_squares)%nat.
Proof.
  intros [_ Hnd Hb _]. rewrite <- length_all_cells.
  apply submseteq_length, NoDup_submseteq; [done|].
  intros c Hc. apply elem_of_all_cells.
  by apply (proj1 (Forall_forall _ _) Hb).
Qed.

(** A stack as long as the grid is large covers every cell. *)
Lemma tour_stack_full (start : Pos) (stack : list Pos) (c : Pos) :
  tour_stack start stack -> length stack = Z.to_nat total_squares ->
  in_bounds c -> c ∈ stack.
Proof.
  intros [_ Hnd Hb _] Hlen Hc.
  assert (stack ≡ₚ all_cells) as Hperm.
  { apply submseteq_length_Permutation; [|rewrite length_all_cells; lia].
    apply NoDup_submseteq; [done|]. intros c' Hc'.
    apply elem_of_all_cells. by apply (proj1 (Forall_forall _ _) Hb). }
  rewrite Hperm. by apply elem_of_all_cells.
Qed.

Lemma knight_chain_lookup (stack : list Pos) (i : nat) (c c' : Pos) :
  knight_chain stack -> stack !! i = Some c' -> stack !! S i = Some c ->
  knight_step c c'.
Proof.
  intros Hch. revert i. induction Hch as [| |top p s Hstep Hch IH];
    intros i Hi HSi; [done|by destruct i|].
  destruct i as [|i]; simpl in Hi, HSi.
  - congruence.
  - by apply (IH i).
Qed.

(** A cell with a non-zero entry is on the stack, at the depth its entry
    tells. *)
Lemma cell_mark_path_inv (start : Pos) (stack : list Pos) (c : Pos) (k : Z) :
  tour_stack start stack -> in_bounds c ->
  cell (mark_path stack) c.1 c.2 = k -> k <> 0 ->
  1 <= k <= Z.of_nat (length stack) /\
  stack !! (length stack - Z.to_nat k)%nat = Some c.
Proof.
  intros [_ Hnd Hb _] Hc Hk Hk0.
  destruct (decide (c ∈ stack)) as [Hin|Hout].
  - apply list_elem_of_lookup_1 in Hin as [i Hi].
    pose proof (lookup_lt_Some _ _ _ Hi).
    rewrite (cell_mark_path_lookup stack i c Hnd Hb Hi) in Hk.
    split; [lia|]. rewrite <- Hi. f_equal. lia.
  - rewrite cell_mark_path_fresh in Hk by done. lia.
Qed.

Lemma mark_path_board (start : Pos) (stack : list Pos) :
  tour_stack start stack ->
  path_board start (mark_path stack) (Z.of_nat (length stack)).
Proof.
  intros Hts. pose proof Hts as [Hlast Hnd Hb Hch]. split.
  - apply wf_mark_path.
  - intros c Hc. destruct (decide (c ∈ stack)) as [Hin|Hout].
    + pose proof (cell_mark_path_elem stack c Hnd Hb Hin). lia.
    + rewrite cell_mark_path_fresh by done. lia.
  - intros k Hk.
    destruct (lookup_lt_is_Some_2 stack (length stack - Z.to_nat k)%nat)
      as [c Hc]; [lia|].
    assert (in_bounds c) as Hcb.
    { apply (proj1 (Forall_forall _ _) Hb). by eapply list_elem_of_lookup_2. }
    exists c. split.
    + split; [done|]. rewrite (cell_mark_path_lookup stack _ c Hnd Hb Hc). lia.
    + intros c' Hcb' Hk'.
      destruct (cell_mark_path_inv start stack c' k Hts Hcb' Hk') as [_ Hc'];
        [lia|]. congruence.
  - intros k c c' Hk Hcb Hcb' Hck Hck'.
    destruct (cell_mark_path_inv start stack c k Hts Hcb Hck) as [_ Hi]; [lia|].
    destruct (cell_mark_path_inv start stack c' (k + 1) Hts Hcb' Hck')
      as [_ Hi']; [lia|].
    apply (knight_chain_lookup stack (length stack - Z.to_nat (k + 1)) c c');
      [done|done|]. rewrite <- Hi. f_equal. lia.
  - intros Hm. rewrite last_lookup in Hlast.
    rewrite (cell_mark_path_lookup stack _ start Hnd Hb Hlast). lia.
  - by rewrite count_positive_mark_path.
Qed.

(** The top of the stack holds the highest index. *)
Lemma mark_path_head (start : Pos) (stack : list Pos) (c : Pos) :
  tour_stack start stack -> head stack = Some c ->
  in_bounds c /\ cell (mark_path stack) c.1 c.2 = Z.of_nat (length stack).
Proof.
  intros [_ Hnd Hb _] Hhd. rewrite head_lookup in Hhd. split.
  - apply (proj1 (Forall_forall _ _) Hb). by eapply list_elem_of_lookup_2.
  - rewrite (cell_mark_path_lookup stack 0 c Hnd Hb Hhd). lia.
Qed.

(** ** The two searches from an in-bounds start *)

Lemma initial_board_inv (start : Pos) :
  in_bounds start ->
  search_inv start ([start], set_cell empty_board start.1 start.2 1).
Proof.
  intros Hin. split; [by apply tour_stack_single|]. by destruct start.
Qed.

Lemma count_unvisited_initial (start : Pos) :
  in_bounds start ->
  (count_unvisited (set_cell empty_board start.1 start.2 1) <
   Z.to_nat total_squares)%nat.
Proof.
  intros Hin.
  pose proof (count_unvisited_mark_path [start]
                (NoDup_singleton start) (proj2 (Forall_singleton _ _) Hin)) as H.
  destruct start as [x y].
  change (set_cell empty_board (x, y).1 (x, y).2 1) with (mark_path [(x, y)]).
  cbn [length] in H. lia.
Qed.

(** The search returns, and its record of states satisfies the invariant. *)
Lemma backtracking_run (start : Pos) :
  in_bounds start ->
  exists ok b log,
    KnightsTourBacktracking_log start = Some (ok, b, log) /\
    KnightsTourBacktracking start = Some (ok, b) /\
    call_ok start [start] (set_cell empty_board start.1 start.2 1)
            (ok, b, log).
Proof.
  intros Hin.
  assert (is_Some (KnightsTourBacktracking start)) as [[ok b] Hrun].
  { unfold KnightsTourBacktracking, KnightsTourBacktracking_fuel.
    destruct start as [x y].
    apply backtrack_total;
      [apply wf_set_cell, wf_empty_board|lia|].
    apply (count_unvisited_initial (x, y) Hin). }
  pose proof Hrun as Hlog.
  unfold KnightsTourBacktracking, KnightsTourBacktracking_fuel in Hlog.
  destruct start as [x y] eqn:Hstart.
  rewrite (backtrack_erase (x, y) _ []) in Hlog.
  destruct (backtrack_log _ _ _ _ _ _ _) as [[[ok' b'] log]|] eqn:Hcall;
    [|done].
  inversion Hlog; subst ok' b'. exists ok, b, log.
  split; [done|]. split; [done|].
  apply (backtrack_log_inv (x, y) _ [] x y 1 _ _
           (initial_board_inv (x, y) Hin) eq_refl Hcall).
Qed.

Lemma closed_tour_on_board (start : Pos) (base : list Pos) (b : Board) :
  closed_tour_on start base b ->
  path_board start b total_squares /\
  (forall c, in_bounds c -> 1 <= cell b c.1 c.2) /\
  exists last, in_bounds last /\ cell b last.1 last.2 = total_squares /\
               is_closed_tour last start = true.
Proof.
  intros (stack & Hts & -> & Hlen & _ & c & Hhd & Hclosed).
  pose proof (mark_path_board start stack Hts) as Hpb.
  rewrite Hlen in Hpb. rewrite Z2Nat.id in Hpb by done.
  split; [done|]. split.
  - intros c' Hc'. pose proof Hts as [_ Hnd Hb _].
    apply (cell_mark_path_elem stack c' Hnd Hb).
    by apply (tour_stack_full start).
  - exists c. destruct (mark_path_head start stack c Hts Hhd) as [Hcb Hc].
    split; [done|]. split; [|done]. rewrite Hc, Hlen. by rewrite Z2Nat.id.
Qed.

Lemma backtracking_success (start : Pos) (b : Board) :
  in_bounds start ->
  KnightsTourBacktracking start = Some (true, b) ->
  closed_tour_on start [start] b.
Proof.
  intros Hin Hrun.
  destruct (backtracking_run start Hin) as (ok & b' & log & _ & Hrun' & Hok).
  rewrite Hrun in Hrun'. inversion Hrun'; subst ok b'.
  by apply Hok.
Qed.

(** *** More fuel does not change a result *)

Lemma try_moves_mono
      (rec rec' : Z -> Z -> Board -> option (bool * Board))
      (mc : Z) (moves : list Pos) (b : Board) (r : bool * Board) :
  (forall nx ny b1 r1, rec nx ny b1 = Some r1 -> rec' nx ny b1 = Some r1) ->
  try_moves rec mc moves b = Some r -> try_moves rec' mc moves b = Some r.
Proof.
  intros Hrec. revert b. induction moves as [|[nx ny] rest IH]; intros b;
    simpl; [done|].
  destruct (rec nx ny _) as [[[] b2]|] eqn:Hcall; [| |done];
    rewrite (Hrec _ _ _ _ Hcall); [done|apply IH].
Qed.

Lemma backtrack_mono (start : Pos) (fuel fuel' : nat)
      (x y mc : Z) (b : Board) (r : bool * Board) :
  (fuel <= fuel')%nat ->
  backtrack start fuel x y mc b = Some r ->
  backtrack start fuel' x y mc b = Some r.
Proof.
  revert fuel' x y mc b r.
  induction fuel as [|fuel IH]; intros fuel' x y mc b r Hle; simpl; [done|].
  destruct fuel' as [|fuel']; [lia|]. simpl.
  destruct (mc =? total_squares); [done|].
  apply try_moves_mono. intros nx ny b1 r1. apply IH. lia.
Qed.

(** * The claims *)



(** C10: [is_closed_tour] is irreflexive, [is_closed_tour(p, p)] is false for
    every position because no knight offset is (0, 0); so a call of
    [backtrack] that reaches the last move index on the start cell itself
    reports the tour as not closed. *)
Theorem is_closed_tour_irreflexive (p : Pos) :
  is_closed_tour p p = false /\
  (forall d, d ∈ KNIGHT_MOVES -> d <> (0, 0)) /\
  (forall fuel b,
      backtrack p (S fuel) p.1 p.2 total_squares b = Some (false, b)).
Proof.
  assert (is_closed_tour p p = false) as Hirr.
  { destruct (is_closed_tour p p) eqn:H; [|done].
    apply is_closed_tour_spec in H. by apply knight_step_irrefl in H. }
  split; [done|]. split; [apply knight_offset_nonzero|].
  intros fuel b. destruct p as [x y]. cbn [backtrack fst snd].
  rewrite Z.eqb_refl. by rewrite Hirr.
Qed.



(** C1: for an in-bounds start, when [KnightsTourBacktracking] reports
    success the board holds exactly the indices 1..64, one per cell with no
    cell left out, the cell holding k+1 is one knight offset from the cell
    holding k, the start cell holds 1, and the start is one of the 8 knight
    offsets away from the cell holding 64 (which is also what the closure
    check [is_closed_tour] answers for that cell). *)
Theorem backtracking_success_closed_tour (start : Pos) (b : Board) :
  in_bounds start ->
  KnightsTourBacktracking start = Some (true, b) ->
  wf_board b /\
  (forall c, in_bounds c -> 1 <= cell b c.1 c.2 <= 64) /\
  each_index_once b 64 /\
  knight_path_on b 64 /\
  cell b start.1 start.2 = 1 /\
  (forall last, in_bounds last -> cell b last.1 last.2 = 64 ->
                knight_step last start /\ is_closed_tour last start = true).
Proof.
  intros Hin Hrun.
  destruct (closed_tour_on_board start [start] b
              (backtracking_success start b Hin Hrun))
    as ([Hwf Hwithin Honce Hpath Hstart _] & Hpos & last & Hlb & Hl & Hclosed).
  change total_squares with 64 in *.
  split; [done|]. split.
  { intros c Hc. specialize (Hpos c Hc). specialize (Hwithin c Hc). lia. }
  split; [done|]. split; [done|]. split; [apply Hstart; lia|].
  intros last' Hlb' Hl'.
  destruct (Honce 64) as (c & _ & Huniq); [lia|].
  rewrite (Huniq last' Hlb' Hl'), <- (Huniq last Hlb Hl).
  split; [by apply is_closed_tour_spec|done].
Qed.

Lemma backtracking_success_closed_tour_witness :
  in_bounds (0, 0) /\
  KnightsTourBacktracking (0, 0) = Some (true, tour_from_origin) /\
  each_index_once tour_from_origin 64 /\
  knight_path_on tour_from_origin 64 /\
  knight_step (1, 2) (0, 0).
Proof.
  assert (in_bounds (0, 0)) as Hin by concrete_in_bounds.
  assert (in_bounds (1, 2)) as Hlast by concrete_in_bounds.
  assert (KnightsTourBacktracking (0, 0) = Some (true, tour_from_origin))
    as Hrun by (vm_compute; reflexivity).
  destruct (backtracking_success_closed_tour (0, 0) tour_from_origin Hin Hrun)
    as (_ & _ & Honce & Hpath & _ & Hclosure).
  split; [exact Hin|]. split; [exact Hrun|].
  split; [exact Honce|]. split; [exact Hpath|].
  exact (proj1 (Hclosure (1, 2) Hlast eq_refl)).
Defined.

(** C2: on the 8x8 board the search from (0, 0) succeeds; the board it
    returns holds each of 1..64 in exactly one cell, and the cell holding 64,
    (1, 2), is one knight offset away from (0, 0). *)
Theorem backtracking_from_origin :
  KnightsTourBacktracking (0, 0) = Some (true, tour_from_origin) /\
  each_index_once tour_from_origin 64 /\
  cell tour_from_origin 1 2 = 64 /\
  knight_step (1, 2) (0, 0) /\
  is_closed_tour (1, 2) (0, 0) = true.
Proof.
  assert (in_bounds (0, 0)) as Hin by concrete_in_bounds.
  assert (KnightsTourBacktracking (0, 0) = Some (true, tour_from_origin))
    as Hrun by (vm_compute; reflexivity).
  destruct (closed_tour_on_board (0, 0) [(0, 0)] tour_from_origin
              (backtracking_success (0, 0) _ Hin Hrun))
    as ([_ _ Honce _ _ _] & _).
  split; [done|]. split; [done|]. split; [by vm_compute|].
  split; [by apply is_closed_tour_spec; vm_compute|by vm_compute].
Qed.

(** C4: a call of [backtrack] that fails returns the board it was entered
    with; so when the whole search fails, [KnightsTourBacktracking] returns
    [false] with a board that holds 1 in the start cell and 0 everywhere
    else. *)
Theorem failed_search_restores_board (start : Pos) :
  (forall fuel x y move_count b b',
      backtrack start fuel x y move_count b = Some (false, b') -> b' = b) /\
  (forall b',
      in_bounds start ->
      KnightsTourBacktracking start = Some (false, b') ->
      b' = set_cell empty_board start.1 start.2 1 /\
      forall c, in_bounds c ->
                cell b' c.1 c.2 = if decide (c = start) then 1 else 0).
Proof.
  split; [intros fuel x y mc b b'; apply backtrack_failure|].
  intros b' Hin Hrun.
  unfold KnightsTourBacktracking, KnightsTourBacktracking_fuel in Hrun.
  destruct start as [x y]. apply backtrack_failure in Hrun. subst b'.
  split; [done|]. intros [cx cy] Hc. cbn [fst snd].
  case_decide as Heq.
  - inversion Heq; subst. apply cell_set_cell_eq; [apply wf_empty_board|done].
  - destruct Hin as [Hx Hy], Hc as [Hcx Hcy]. cbn [fst snd] in *.
    rewrite cell_set_cell_ne by (try lia; congruence).
    apply cell_empty_board.
Qed.

Lemma failed_search_restores_board_witness :
  backtrack (7, 7) 2 3 3 63 tour_but_last = Some (false, tour_but_last) /\
  get_sorted_moves 3 3 tour_but_last = [(1, 2)].
Proof.
  assert (exists b', backtrack (7, 7) 2 3 3 63 tour_but_last = Some (false, b'))
    as [b' Hrun] by (eexists; vm_compute; reflexivity).
  split; [|by vm_compute].
  rewrite Hrun. do 2 f_equal.
  exact (proj1 (failed_search_restores_board (7, 7)) 2%nat 3 3 63
               tour_but_last b' Hrun).
Defined.

(** C5: throughout the backtracking search from an in-bounds start, at the
    entry of every call and after every unmarking, the board is the numbering
    of the cells of the active calls: those cells form a knight path from the
    start, the cell at depth k holds k (the start holds 1), every other cell
    holds 0, so the positive entries are exactly 1..m for the depth m. *)
Theorem search_invariant_holds (start : Pos) :
  in_bounds start ->
  exists ok b log,
    KnightsTourBacktracking_log start = Some (ok, b, log) /\
    KnightsTourBacktracking start = Some (ok, b) /\
    head log = Some ([start], set_cell empty_board start.1 start.2 1) /\
    forall stack board, (stack, board) ∈ log ->
      let m := Z.of_nat (length stack) in
      tour_stack start stack /\
      board = mark_path stack /\
      path_board start board m /\
      (forall i c, stack !! i = Some c ->
                   cell board c.1 c.2 = m - Z.of_nat i) /\
      (forall c, in_bounds c -> c ∉ stack -> cell board c.1 c.2 = 0).
Proof.
  intros Hin.
  destruct (backtracking_run start Hin) as (ok & b & log & Hlog & Hrun & Hok).
  exists ok, b, log. split; [done|]. split; [done|]. split.
  - unfold KnightsTourBacktracking_log in Hlog. destruct start as [x y].
    cbn [backtrack_log Z.to_nat Pos.to_nat Pos.iter_op Nat.add total_squares]
      in Hlog.
    destruct (Z.to_nat total_squares) as [|fuel] eqn:Hfuel; [done|].
    cbn [backtrack_log] in Hlog.
    destruct (1 =? total_squares); [by inversion Hlog|].
    destruct (try_moves_log _ _ _ _ _) as [[[ok' b''] log']|]; [|done].
    by inversion Hlog.
  - destruct Hok as (Hall & _). cbn [fst snd] in Hall.
    intros stack board Hsnap m.
    destruct (proj1 (Forall_forall _ _) Hall _ Hsnap) as [Hts Hbd].
    cbn [fst snd] in Hts, Hbd. subst board. pose proof Hts as [_ Hnd Hb _].
    split; [done|]. split; [done|].
    split; [by apply mark_path_board|]. split.
    + intros i c Hi. rewrite (cell_mark_path_lookup stack i c Hnd Hb Hi).
      apply lookup_lt_Some in Hi. lia.
    + intros c Hc Hout. by apply cell_mark_path_fresh.
Qed.

Lemma search_invariant_holds_witness :
  in_bounds (0, 0) /\
  exists ok b log,
    KnightsTourBacktracking_log (0, 0) = Some (ok, b, log) /\
    KnightsTourBacktracking (0, 0) = Some (ok, b) /\
    head log = Some ([(0, 0)], set_cell empty_board 0 0 1).
Proof.
  assert (in_bounds (0, 0)) as Hin by concrete_in_bounds.
  split; [done|].
  destruct (search_invariant_holds (0, 0) Hin)
    as (ok & b & log & H1 & H2 & H3 & _).
  exists ok, b, log. exact (conj H1 (conj H2 H3)).
Defined.

(** C3: from an in-bounds start both searches return a result.  The Las
    Vegas loop makes at most 63 moves after the initial mark, whatever the
    random choices are; and a call of [backtrack] on a board of the
    program's dimensions returns within a recursion depth bounded by the
    number of unvisited cells. *)
Theorem searches_terminate (start : Pos) :
  in_bounds start ->
  (forall rnd, exists st,
      lv_loop rnd 64 (lv_init start) = Some st /\
      (lv_draws st <= 63)%nat /\
      lv_move_count st = 1 + Z.of_nat (lv_draws st) /\
      exists ok, KnightsTourLasVegas rnd start = Some (ok, lv_board st)) /\
  (exists ok b, KnightsTourBacktracking start = Some (ok, b)) /\
  (forall fuel x y move_count b,
      wf_board b -> 0 <= move_count -> (count_unvisited b < fuel)%nat ->
      exists ok b', backtrack start fuel x y move_count b = Some (ok, b')).
Proof.
  intros Hin. split; [|split].
  - intros rnd.
    destruct (lv_loop_total rnd 64 (lv_init start)) as (st & Hrun & Hd & Hmc).
    { destruct start as [x y]. by vm_compute. }
    assert (lv_move_count (lv_init start) = 1 /\
            lv_draws (lv_init start) = 0%nat) as [Hmc0 Hd0]
      by (by destruct start).
    rewrite Hmc0 in Hd, Hmc. rewrite Hd0 in Hd.
    change total_squares with 64 in Hmc.
    exists st. split; [done|]. split; [lia|]. split; [lia|].
    unfold KnightsTourLasVegas, KnightsTourLasVegas_fuel.
    change (Z.to_nat total_squares) with 64%nat. rewrite Hrun. by eexists.
  - destruct (backtracking_run start Hin) as (ok & b & _ & _ & Hrun & _).
    by exists ok, b.
  - intros fuel x y mc b Hwf Hmc Hfuel.
    destruct (backtrack_total start fuel x y mc b Hwf Hmc Hfuel)
      as [[ok b'] Hrun].
    by exists ok, b'.
Qed.

Lemma searches_terminate_witness :
  in_bounds (0, 0) /\
  (exists ok b, KnightsTourBacktracking (0, 0) = Some (ok, b)) /\
  (exists st, lv_loop (fun _ => 0%nat) 64 (lv_init (0, 0)) = Some st /\
              (lv_draws st <= 63)%nat).
Proof.
  assert (in_bounds (0, 0)) as Hin by concrete_in_bounds.
  split; [done|].
  destruct (searches_terminate (0, 0) Hin) as (Hlv & Hbt & _).
  split; [exact Hbt|].
  destruct (Hlv (fun _ => 0%nat)) as (st & Hrun & Hd & _).
  exists st. exact (conj Hrun Hd).
Defined.

(** C9: [KnightsTourBacktracking] takes no random source, and its result is
    a function of the start alone: from an in-bounds start every run with
    enough recursion depth returns the same success flag and the same
    board. *)
Theorem backtracking_deterministic (start : Pos) (fuel1 fuel2 : nat) :
  in_bounds start -> (64 <= fuel1)%nat -> (64 <= fuel2)%nat ->
  exists ok b,
    KnightsTourBacktracking_fuel fuel1 start = Some (ok, b) /\
    KnightsTourBacktracking_fuel fuel2 start = Some (ok, b) /\
    KnightsTourBacktracking start = Some (ok, b).
Proof.
  intros Hin H1 H2.
  destruct (backtracking_run start Hin) as (ok & b & _ & _ & Hrun & _).
  exists ok, b.
  unfold KnightsTourBacktracking, KnightsTourBacktracking_fuel in *.
  destruct start as [x y].
  split; [|split; [|done]];
    (eapply backtrack_mono; [|exact Hrun]);
    change (Z.to_nat total_squares) with 64%nat; lia.
Qed.

Lemma backtracking_deterministic_witness :
  in_bounds (3, 4) /\ (64 <= 64)%nat /\ (64 <= 100)%nat /\
  KnightsTourBacktracking_fuel 64 (3, 4) =
  KnightsTourBacktracking_fuel 100 (3, 4).
Proof.
  assert (in_bounds (3, 4)) as Hin by concrete_in_bounds.
  split; [done|]. split; [lia|]. split; [lia|].
  destruct (backtracking_deterministic (3, 4) 64 100 Hin)
    as (ok & b & -> & -> & _); [lia|lia|reflexivity].
Defined.

(** The result of the Las Vegas walk, described by the stack of the cells it
    visited. *)
Lemma las_vegas_run (rnd : nat -> nat) (start : Pos) :
  in_bounds start ->
  exists st stack,
    lv_loop rnd 64 (lv_init start) = Some st /\
    st = lv_iter rnd 64 (lv_init start) /\
    KnightsTourLasVegas rnd start =
      Some ((lv_move_count st =? total_squares) &&
            is_closed_tour (lv_current st) start, lv_board st) /\
    tour_stack start stack /\
    head stack = Some (lv_current st) /\
    lv_board st = mark_path stack /\
    lv_move_count st = Z.of_nat (length stack).
Proof.
  intros Hin.
  destruct (lv_loop_total rnd 64 (lv_init start)) as (st & Hrun & _).
  { destruct start as [x y]. by vm_compute. }
  destruct (lv_loop_iter rnd _ _ _ Hrun) as [Hiter _].
  assert (lv_inv start st) as (stack & Hts & Hhd & Hb & Hmc & _).
  { rewrite Hiter. by apply lv_iter_inv, lv_init_inv. }
  exists st, stack. split; [done|]. split; [done|].
  split; [|done].
  unfold KnightsTourLasVegas, KnightsTourLasVegas_fuel.
  change (Z.to_nat total_squares) with 64%nat. by rewrite Hrun.
Qed.

(** C7: from an in-bounds start and for every sequence of random choices,
    [KnightsTourLasVegas] returns a board numbering the walk, whose last
    visited cell holds the number of visited cells; the flag is true exactly
    when all 64 cells are visited and the start is one of the 8 knight
    offsets away from that cell, and false exactly when fewer than 64 cells
    are visited or all 64 are and the start is no knight offset away from
    the last one. *)
Theorem las_vegas_success_flag (rnd : nat -> nat) (start : Pos) :
  in_bounds start ->
  exists ok b last,
    KnightsTourLasVegas rnd start = Some (ok, b) /\
    let visited := Z.of_nat (count_positive b) in
    path_board start b visited /\
    in_bounds last /\ cell b last.1 last.2 = visited /\
    1 <= visited <= 64 /\
    (visited = 64 <-> forall c, in_bounds c -> 1 <= cell b c.1 c.2) /\
    (ok = true <-> visited = 64 /\ knight_step last start) /\
    (ok = false <->
       visited < 64 \/ (visited = 64 /\ ~ knight_step last start)).
Proof.
  intros Hin.
  destruct (las_vegas_run rnd start Hin)
    as (st & stack & _ & _ & Hres & Hts & Hhd & Hb & Hmc).
  pose proof (mark_path_board start stack Hts) as Hpb.
  destruct (mark_path_head start stack _ Hts Hhd) as [Hlb Hl].
  pose proof (tour_stack_length start stack Hts) as Hlen.
  pose proof Hts as [_ Hnd Hbd _].
  change (Z.to_nat total_squares) with 64%nat in Hlen.
  exists ((lv_move_count st =? total_squares) &&
          is_closed_tour (lv_current st) start), (lv_board st), (lv_current st).
  split; [done|]. rewrite Hb, Hmc. cbv zeta.
  rewrite count_positive_mark_path by done.
  change total_squares with 64.
  split; [done|]. split; [done|]. split; [done|].
  split; [destruct stack; [done|cbn [length] in *; lia]|].
  split; [|split].
  - split.
    + intros Hfull c Hc. apply (cell_mark_path_elem stack c Hnd Hbd).
      apply (tour_stack_full start); [done| |done].
      change (Z.to_nat total_squares) with 64%nat. lia.
    + intros Hall.
      assert (all_cells ⊆+ stack) as Hsub.
      { apply NoDup_submseteq; [apply NoDup_all_cells|].
        intros c Hc. apply elem_of_all_cells in Hc.
        destruct (decide (c ∈ stack)) as [|Hout]; [done|].
        specialize (Hall c Hc).
        rewrite cell_mark_path_fresh in Hall by done. lia. }
      apply submseteq_length in Hsub. rewrite length_all_cells in Hsub.
      change (Z.to_nat total_squares) with 64%nat in Hsub. lia.
  - rewrite andb_true_iff, Z.eqb_eq, is_closed_tour_spec. done.
  - rewrite andb_false_iff, Z.eqb_neq, <- not_true_iff_false,
      is_closed_tour_spec. split.
    + intros [Hne|Hopen]; [left; lia|].
      destruct (decide (Z.of_nat (length stack) = 64)); [by right|left; lia].
    + intros [Hlt|[Heq Hopen]]; [left; lia|by right].
Qed.

Lemma las_vegas_success_flag_witness :
  in_bounds (0, 0) /\
  KnightsTourLasVegas (fun _ => 0%nat) (0, 0) =
    Some (false,
          [[1; 0; 0; 0; 0; 0; 0; 0]; [0; 0; 0; 0; 0; 0; 0; 0];
           [0; 2; 0; 0; 0; 0; 0; 0]; [0; 0; 0; 0; 0; 0; 0; 0];
           [0; 0; 3; 0; 5; 0; 7; 0]; [0; 0; 0; 0; 0; 0; 10; 0];
           [0; 0; 0; 4; 0; 6; 0; 8]; [0; 0; 0; 0; 0; 9; 0; 11]]) /\
  exists ok b last,
    KnightsTourLasVegas (fun _ => 0%nat) (0, 0) = Some (ok, b) /\
    cell b last.1 last.2 = Z.of_nat (count_positive b) /\
    (ok = true <->
     Z.of_nat (count_positive b) = 64 /\ knight_step last (0, 0)).
Proof.
  assert (in_bounds (0, 0)) as Hin by concrete_in_bounds.
  split; [exact Hin|]. split; [vm_compute; reflexivity|].
  destruct (las_vegas_success_flag (fun _ => 0%nat) (0, 0) Hin)
    as (ok & b & last & Hrun & _ & _ & Hlast & _ & _ & Hyes & _).
  exists ok, b, last. exact (conj Hrun (conj Hlast Hyes)).
Defined.

(** C8: from an in-bounds start and for every sequence of random choices,
    the Las Vegas walk writes only to unvisited cells (the first mark
    included), a cell that holds a move index keeps it in every later state
    of the run up to the board returned, and no state of the run has more
    than 64 marked cells. *)
Theorem las_vegas_marks_once (rnd : nat -> nat) (start : Pos) :
  in_bounds start ->
  let run := fun n => lv_iter rnd n (lv_init start) in
  (cell empty_board start.1 start.2 = 0 /\
   lv_board (run 0%nat) = set_cell empty_board start.1 start.2 1) /\
  (forall i st', lv_step rnd (run i) = Some st' ->
     st' = run (S i) /\
     exists c, in_bounds c /\ cell (lv_board (run i)) c.1 c.2 = 0 /\
               lv_board st' = set_cell (lv_board (run i)) c.1 c.2
                                       (lv_move_count (run i) + 1)) /\
  (forall i j c, (i <= j)%nat -> in_bounds c ->
     cell (lv_board (run i)) c.1 c.2 <> 0 ->
     cell (lv_board (run j)) c.1 c.2 = cell (lv_board (run i)) c.1 c.2) /\
  (forall i, (count_positive (lv_board (run i)) <= 64)%nat /\
             Z.of_nat (count_positive (lv_board (run i))) =
             lv_move_count (run i)) /\
  (exists ok, KnightsTourLasVegas rnd start = Some (ok, lv_board (run 64%nat))).
Proof.
  intros Hin run. split; [|split; [|split; [|split]]].
  - split; [apply cell_empty_board|]. by destruct start.
  - intros i st' Hstep. split.
    + unfold run in *. replace (S i) with (i + 1)%nat by lia.
      rewrite lv_iter_add. cbn [lv_iter]. by rewrite Hstep.
    + apply lv_step_inv in Hstep as (c & Hc & _ & ->).
      apply elem_of_get_valid_moves in Hc as (_ & Hcb & H0).
      by exists c.
  - intros i j [x y] Hij Hc Hmark. unfold run.
    replace j with (i + (j - i))%nat by lia. rewrite lv_iter_add.
    by apply lv_iter_keeps_marks.
  - intros i.
    destruct (lv_iter_inv rnd start i (lv_init start) (lv_init_inv start Hin))
      as (stack & Hts & _ & Hb & Hmc & _).
    pose proof Hts as [_ Hnd Hbd _]. fold (run i) in Hb, Hmc.
    rewrite Hb, Hmc, count_positive_mark_path by done.
    split; [|done]. apply (tour_stack_length start stack Hts).
  - destruct (las_vegas_run rnd start Hin)
      as (st & stack & _ & Hiter & Hres & _).
    rewrite Hres. unfold run. rewrite <- Hiter. by eexists.
Qed.

Lemma las_vegas_marks_once_witness :
  in_bounds (0, 0) /\
  lv_board (lv_iter (fun _ => 0%nat) 3 (lv_init (0, 0))) =
    [[1; 0; 0; 0; 0; 0; 0; 0]; [0; 0; 0; 0; 0; 0; 0; 0];
     [0; 2; 0; 0; 0; 0; 0; 0]; [0; 0; 0; 0; 0; 0; 0; 0];
     [0; 0; 3; 0; 0; 0; 0; 0]; [0; 0; 0; 0; 0; 0; 0; 0];
     [0; 0; 0; 4; 0; 0; 0; 0]; [0; 0; 0; 0; 0; 0; 0; 0]] /\
  cell (lv_board (lv_iter (fun _ => 0%nat) 64 (lv_init (0, 0)))) 4 2 = 3.
Proof.
  assert (in_bounds (0, 0)) as Hin by concrete_in_bounds.
  assert (in_bounds (4, 2)) as Hc by concrete_in_bounds.
  split; [done|]. split; [vm_compute; reflexivity|].
  destruct (las_vegas_marks_once (fun _ => 0%nat) (0, 0) Hin)
    as (_ & _ & Hkeep & _).
  assert (cell (lv_board (lv_iter (fun _ => 0%nat) 3 (lv_init (0, 0)))) 4 2
          <> 0) as Hmark by (vm_compute; discriminate).
  pose proof (Hkeep 3%nat 64%nat (4, 2) ltac:(lia) Hc Hmark) as H.
  cbn [fst snd] in H. rewrite H. vm_compute. reflexivity.
Defined.

(** * Further properties of the code *)

(** ** Splitting and joining stacks *)

Lemma knight_chain_cons_inv (c p : Pos) (s : list Pos) :
  knight_chain (c :: p :: s) <-> knight_step p c /\ knight_chain (p :: s).
Proof.
  split; [by inversion 1|]. intros [Hstep Hch]. by constructor.
Qed.

Lemma knight_chain_app (upper lower : list Pos) :
  knight_chain (upper ++ lower) <->
  knight_chain upper /\ knight_chain lower /\ chain_joint upper lower.
Proof.
  unfold chain_joint. induction upper as [|c [|p s] IH].
  - simpl. split; [intros H; by repeat split; [constructor|]|tauto].
  - destruct lower as [|p s]; simpl.
    + split; [intros H; by repeat split; constructor|intros _; constructor].
    + rewrite knight_chain_cons_inv. split.
      * intros [Hstep Hch]. by repeat split; [constructor|..].
      * tauto.
  - change ((c :: p :: s) ++ lower) with (c :: p :: (s ++ lower)).
    rewrite !knight_chain_cons_inv. change (p :: s ++ lower)
      with ((p :: s) ++ lower). rewrite IH.
    change (last (c :: p :: s)) with (last (p :: s)). tauto.
Qed.

Lemma tour_stack_suffix (start : Pos) (ext base : list Pos) :
  tour_stack start (ext ++ base) -> base <> [] -> tour_stack start base.
Proof.
  intros [Hlast Hnd Hb Hch] Hne. split.
  - rewrite last_app in Hlast. destruct (last base) eqn:Hl; [done|].
    by apply last_is_Some in Hne as [? ?]; simplify_eq.
  - by apply NoDup_app in Hnd as (_ & _ & Hnd).
  - by apply Forall_app in Hb as [_ Hb].
  - by apply knight_chain_app in Hch as (_ & Hch & _).
Qed.

(** The cell that follows the top of [base] on a longer stack is one of the
    candidates the searches compute at [base]. *)
Lemma tour_stack_next_candidate (start c : Pos) (x y : Z)
      (ext callers : list Pos) :
  tour_stack start (ext ++ c :: (x, y) :: callers) ->
  c ∈ get_valid_moves x y (mark_path ((x, y) :: callers)).
Proof.
  intros Hts. apply tour_stack_suffix in Hts as [_ Hnd Hb Hch]; [|done].
  apply NoDup_cons in Hnd as [Hout Hnd].
  apply Forall_cons in Hb as [Hc Hb].
  apply knight_chain_cons_inv in Hch as [Hstep _].
  apply elem_of_get_valid_moves. split; [done|]. split; [done|].
  by apply cell_mark_path_fresh.
Qed.

(** ** Completeness of the backtracking search *)

Section Completeness.
Variable start : Pos.

Lemma closed_tour_on_split (base : list Pos) (b : Board) :
  closed_tour_on start base b ->
  base <> [] ->
  (length base = Z.to_nat total_squares /\
   exists c, head base = Some c /\ is_closed_tour c start = true) \/
  (exists c, closed_tour_on start (c :: base) b /\
             exists ext, tour_stack start (ext ++ c :: base)).
Proof.
  intros (stack & Hts & Hb & Hlen & [ext ->] & Hclosed) Hne.
  destruct (decide (ext = [])) as [->|Hext].
  - left. by split.
  - right. apply exists_last in Hext as (ext' & c & ->).
    rewrite <- app_assoc in *. cbn [app] in *. exists c. split.
    + exists (ext' ++ c :: base). do 3 (split; [done|]).
      split; [by exists ext'|done].
    + by exists ext'.
Qed.

Lemma try_moves_complete
      (rec : Z -> Z -> Board -> option (bool * Board))
      (x y mc : Z) (callers moves : list Pos) (b' : Board) :
  let stack := (x, y) :: callers in
  tour_stack start stack ->
  mc = Z.of_nat (length stack) ->
  (forall nx ny b1 b2,
      search_inv start ((nx, ny) :: stack, b1) ->
      rec nx ny b1 = Some (false, b2) ->
      b2 = b1 /\ ~ exists b3, closed_tour_on start ((nx, ny) :: stack) b3) ->
  (forall c, c ∈ moves -> c ∈ get_valid_moves x y (mark_path stack)) ->
  try_moves rec mc moves (mark_path stack) = Some (false, b') ->
  forall c, c ∈ moves -> ~ exists b3, closed_tour_on start (c :: stack) b3.
Proof.
  intros stack Hts Hmc Hrec.
  induction moves as [|[nx ny] rest IH]; intros Hmoves Hrun c Hc;
    [by apply elem_of_nil in Hc|].
  cbn [try_moves] in Hrun.
  assert ((nx, ny) ∈ get_valid_moves x y (mark_path stack)) as Hvalid
      by (apply Hmoves; by left).
  assert (search_inv start ((nx, ny) :: stack,
                            set_cell (mark_path stack) nx ny (mc + 1)))
    as Hinv1.
  { split; cbn [fst snd];
      [by apply tour_stack_push|by apply mark_path_push]. }
  destruct (rec nx ny _) as [[[] b2]|] eqn:Hcall; [done| |done].
  destruct (Hrec _ _ _ _ Hinv1 Hcall) as [-> Hnone].
  apply elem_of_get_valid_moves in Hvalid as (_ & _ & H0).
  cbn [fst snd] in H0. rewrite unmark_mark in Hrun by done.
  apply elem_of_cons in Hc as [->|Hc]; [done|].
  apply IH; [|done|done]. intros c' Hc'. apply Hmoves. by right.
Qed.

Lemma backtrack_complete (fuel : nat) (callers : list Pos)
      (x y mc : Z) (b b' : Board) :
  let stack := (x, y) :: callers in
  search_inv start (stack, b) ->
  mc = Z.of_nat (length stack) ->
  backtrack start fuel x y mc b = Some (false, b') ->
  ~ exists b3, closed_tour_on start stack b3.
Proof.
  revert callers x y mc b b'.
  induction fuel as [|fuel IH]; intros callers x y mc b b' stack
    [Hts Hb] Hmc Hrun; cbn [backtrack] in Hrun; [done|].
  cbn [fst snd] in Hts, Hb. subst b. intros [b3 Htour].
  destruct (closed_tour_on_split _ _ Htour) as
      [(Hlen & c & Hhd & Hclosed)|(c & Htour' & ext & Hext)]; [done| |].
  - assert ((mc =? total_squares) = true) as Hfull
        by (apply Z.eqb_eq; rewrite Hmc, Hlen; by apply Z2Nat.id).
    rewrite Hfull in Hrun. inversion Hhd; subst c. congruence.
  - destruct (mc =? total_squares) eqn:Hfull.
    + apply Z.eqb_eq in Hfull.
      pose proof (tour_stack_length start _ Hext) as Hlen.
      rewrite length_app in Hlen. cbn [length] in Hlen.
      fold stack in Hlen. change total_squares with 64 in *.
      change (Z.to_nat 64) with 64%nat in Hlen. lia.
    + cbv zeta in Hrun.
      apply (try_moves_complete _ x y mc callers _ b' Hts Hmc) with (c := c)
        in Hrun.
      * apply Hrun. by exists b3.
      * intros nx ny b1 b2 Hinv1 Hcall. split.
        -- by apply backtrack_failure in Hcall.
        -- apply (IH stack nx ny (mc + 1) b1 b2 Hinv1); [|done].
           subst stack. cbn [length] in *. lia.
      * intros c'. apply elem_of_get_sorted_moves.
      * apply elem_of_get_sorted_moves.
        by apply (tour_stack_next_candidate start c x y ext callers).
Qed.
End Completeness.
Lemma closed_tour_on_stack (start : Pos) (base : list Pos) (b : Board) :
  closed_tour_on start base b <->
  exists stack, closed_tour_stack start stack /\ b = mark_path stack /\
                base `suffix_of` stack.
Proof.
  unfold closed_tour_on, closed_tour_stack. split.
  - intros (stack & ? & ? & ? & ? & ?). by exists stack.
  - intros (stack & (? & ? & ?) & ? & ?). by exists stack.
Qed.

Lemma closed_tour_stack_start (start : Pos) (stack : list Pos) :
  closed_tour_stack start stack -> [start] `suffix_of` stack.
Proof.
  intros [[Hlast _ _ _] _]. apply last_Some in Hlast as [l' ->].
  by exists l'.
Qed.

Lemma backtracking_finds_existing_tour (start : Pos) (stack : list Pos) :
  in_bounds start -> closed_tour_stack start stack ->
  exists b, KnightsTourBacktracking start = Some (true, b).
Proof.
  intros Hin Htour.
  destruct (backtracking_run start Hin) as (ok & b & _ & _ & Hrun & _).
  destruct ok; [by exists b|]. exfalso.
  unfold KnightsTourBacktracking, KnightsTourBacktracking_fuel in Hrun.
  destruct start as [x y].
  apply (backtrack_complete (x, y) _ [] x y 1 _ b
           (initial_board_inv (x, y) Hin) eq_refl Hrun).
  exists (mark_path stack). apply closed_tour_on_stack. exists stack.
  split; [done|]. split; [done|]. by apply closed_tour_stack_start.
Qed.



(** ** A closed tour can be entered at any of its cells *)

Lemma origin_run :
  KnightsTourBacktracking (0, 0) = Some (true, tour_from_origin).
Proof. vm_compute. reflexivity. Qed.

Lemma closed_tour_rotate (start start' : Pos) (stack : list Pos) :
  closed_tour_stack start stack -> start' ∈ stack ->
  exists stack', closed_tour_stack start' stack'.
Proof.
  intros ([Hlast Hnd Hb Hch] & Hlen & top & Hhd & Hclosed) Hin.
  apply is_closed_tour_spec in Hclosed.
  apply list_elem_of_split in Hin as (upper & lower & ->).
  exists (lower ++ upper ++ [start']).
  assert (lower ++ upper ++ [start'] ≡ₚ upper ++ start' :: lower) as Hperm.
  { rewrite (Permutation_app_comm lower). by rewrite <- app_assoc. }
  apply knight_chain_app in Hch as (Hup & Hlow & Hjoint).
  unfold chain_joint in Hjoint. cbn [head] in Hjoint.
  split; [split|split].
  - by rewrite app_assoc, last_snoc.
  - by rewrite Hperm.
  - by rewrite Hperm.
  - apply knight_chain_app. split; [|split].
    + destruct lower as [|p s]; [constructor|].
      by apply knight_chain_cons_inv in Hlow as [_ ?].
    + apply knight_chain_app. split; [done|]. split; [constructor|done].
    + unfold chain_joint.
      destruct (last lower) as [c|] eqn:Hl; [|done].
      rewrite last_app_cons, last_cons, Hl in Hlast.
      inversion Hlast; subst c.
      destruct upper as [|u us]; cbn [head app] in *;
        inversion Hhd; by subst.
  - by rewrite Hperm, <- Hlen.
  - destruct lower as [|p s]; cbn [head app].
    + rewrite last_app_cons in Hlast. cbn [last] in Hlast.
      inversion Hlast; subst start'. exists top.
      split; [|by apply is_closed_tour_spec].
      by destruct upper.
    + exists p. split; [done|]. apply is_closed_tour_spec.
      by apply knight_chain_cons_inv in Hlow as [? _].
Qed.

Lemma closed_tour_everywhere (start : Pos) :
  in_bounds start -> exists stack, closed_tour_stack start stack.
Proof.
  intros Hin.
  assert (in_bounds (0, 0)) as Hin0 by concrete_in_bounds.
  pose proof (backtracking_success (0, 0) _ Hin0 origin_run) as Htour.
  apply closed_tour_on_stack in Htour as (stack & Htour & _).
  apply (closed_tour_rotate (0, 0) start stack Htour).
  destruct Htour as (Hts & Hlen & _). by apply (tour_stack_full (0, 0)).
Qed.

(** X2: on the 8x8 board a closed tour exists from every cell (the tour
    found from (0, 0) can be entered anywhere), so [KnightsTourBacktracking]
    reports success from every in-bounds start. *)
Theorem backtracking_succeeds_everywhere (start : Pos) :
  in_bounds start ->
  (exists stack, closed_tour_stack start stack) /\
  exists b, KnightsTourBacktracking start = Some (true, b).
Proof.
  intros Hin. destruct (closed_tour_everywhere start Hin) as [stack Htour].
  split; [by exists stack|].
  by apply (backtracking_finds_existing_tour start stack).
Qed.

Lemma backtracking_succeeds_everywhere_witness :
  in_bounds (5, 6) /\
  exists b, KnightsTourBacktracking (5, 6) = Some (true, b).
Proof.
  assert (in_bounds (5, 6)) as Hin by concrete_in_bounds.
  split; [exact Hin|].
  exact (proj2 (backtracking_succeeds_everywhere (5, 6) Hin)).
Defined.


(** ** More on the Las Vegas walk *)

Section LasVegasMore.

Lemma lv_step_None (rnd : nat -> nat) (st : lv_state) :
  lv_step rnd st = None ->
  total_squares <= lv_move_count st \/
  get_valid_moves (lv_current st).1 (lv_current st).2 (lv_board st) = [].
Proof.
  unfold lv_step. destruct st as [b [cx cy] mc k];
    cbn [lv_current lv_board lv_move_count lv_draws fst snd].
  destruct (mc <? total_squares) eqn:Hlt; [|apply Z.ltb_ge in Hlt; by left].
  destruct (get_valid_moves cx cy b) as [|m ms]; [by right|].
  by destruct (random_choice rnd k (m :: ms)).
Qed.

Lemma lv_step_ext (rnd rnd' : nat -> nat) (st : lv_state) :
  rnd (lv_draws st) = rnd' (lv_draws st) ->
  lv_step rnd st = lv_step rnd' st.
Proof.
  intros Heq. unfold lv_step, random_choice. by rewrite Heq.
Qed.

(** The walk depends on the random source only through the draws it
    makes. *)
Lemma lv_iter_ext (rnd rnd' : nat -> nat) (n : nat) (st : lv_state) :
  (forall k, (lv_draws st <= k < lv_draws st + n)%nat -> rnd k = rnd' k) ->
  lv_iter rnd n st = lv_iter rnd' n st.
Proof.
  revert st. induction n as [|n IH]; intros st Hext; [done|].
  cbn [lv_iter]. rewrite <- (lv_step_ext rnd rnd') by (apply Hext; lia).
  destruct (lv_step rnd st) as [st'|] eqn:Hstep; [|done].
  apply IH. intros k Hk. apply Hext.
  apply lv_step_inv in Hstep as (c & _ & _ & ->).
  cbn [lv_draws] in Hk. lia.
Qed.

Lemma lv_iter_loop (rnd : nat -> nat) (n : nat) (st : lv_state) :
  lv_step rnd (lv_iter rnd n st) = None ->
  lv_loop rnd (S n) st = Some (lv_iter rnd n st).
Proof.
  revert st. induction n as [|n IH]; intros st Hstop.
  - cbn [lv_iter] in Hstop. cbn [lv_loop lv_iter]. by rewrite Hstop.
  - cbn [lv_iter] in *. change (lv_loop rnd (S (S n)) st)
      with (match lv_step rnd st with
            | None => Some st
            | Some st' => lv_loop rnd (S n) st'
            end).
    destruct (lv_step rnd st) as [st'|] eqn:Hstep; [by apply IH|done].
Qed.

(** A choice of the random source leads the walk along any stack of
    distinct cells joined by knight offsets. *)
Lemma lv_reach (start : Pos) (stack : list Pos) (top : Pos) :
  tour_stack start stack -> head stack = Some top ->
  exists rnd,
    lv_iter rnd (length stack - 1) (lv_init start) =
    LvState (mark_path stack) top (Z.of_nat (length stack))
            (length stack - 1).
Proof.
  revert top. induction stack as [|c [|p s] IH]; intros top Hts Hhd; [done| |].
  - exists (fun _ => 0%nat). pose proof Hts as [Hlast _ _ _].
    cbn [last head] in Hlast, Hhd.
    assert (c = start) as -> by congruence.
    assert (top = start) as -> by congruence. by destruct start.
  - inversion Hhd; subst top.
    pose proof (tour_stack_suffix start [c] (p :: s) Hts ltac:(done)) as Hts'.
    destruct (IH p Hts' eq_refl) as [rnd0 Hreach].
    pose proof (tour_stack_length start _ Hts) as Hlen.
    change (Z.to_nat total_squares) with 64%nat in Hlen.
    destruct p as [x y].
    pose proof (tour_stack_next_candidate start c x y [] s Hts) as Hc.
    apply list_elem_of_lookup_1 in Hc as [i Hi].
    pose proof (lookup_lt_Some _ _ _ Hi) as Hilt.
    set (n := (length ((x, y) :: s) - 1)%nat) in *.
    exists (rnd_then rnd0 n i).
    replace (length (c :: (x, y) :: s) - 1)%nat with (n + 1)%nat
      by (subst n; cbn [length]; lia).
    rewrite lv_iter_add.
    rewrite (lv_iter_ext _ rnd0 n).
    2:{ intros k Hk. unfold rnd_then.
        destruct start; cbn [lv_init lv_draws] in Hk.
        destruct (k <? n)%nat eqn:Hkn; [done|].
        apply Nat.ltb_ge in Hkn. lia. }
    rewrite Hreach. cbn [lv_iter]. unfold lv_step.
    cbn [lv_current lv_board lv_move_count lv_draws].
    assert ((Z.of_nat (length ((x, y) :: s)) <? total_squares) = true) as ->.
    { apply Z.ltb_lt. change total_squares with 64. cbn [length] in *. lia. }
    destruct (get_valid_moves x y (mark_path ((x, y) :: s))) as [|m ms] eqn:Hm;
      [done|].
    unfold random_choice, rnd_then. rewrite Nat.ltb_irrefl.
    rewrite Nat.mod_small by done. rewrite Hi. cbn [default from_option id].
    destruct c as [nx ny]. f_equal.
    + by apply mark_path_push.
    + cbn [length]. lia.
    + subst n. cbn [length]. lia.
Qed.
End LasVegasMore.

(** X3: the Las Vegas walk stops early only at a dead end.  When it returns
    with fewer than 64 visited cells the flag is false, the last visited
    cell (the one holding the highest index) has no valid move left, and
    every in-bounds cell one knight offset from it is already visited. *)
Theorem las_vegas_stops_at_dead_end (rnd : nat -> nat) (start : Pos) :
  in_bounds start ->
  exists ok b last,
    KnightsTourLasVegas rnd start = Some (ok, b) /\
    in_bounds last /\
    cell b last.1 last.2 = Z.of_nat (count_positive b) /\
    ((count_positive b < 64)%nat ->
     ok = false /\
     get_valid_moves last.1 last.2 b = [] /\
     forall c, knight_step last c -> in_bounds c -> cell b c.1 c.2 <> 0).
Proof.
  intros Hin.
  destruct (las_vegas_run rnd start Hin)
    as (st & stack & Hloop & _ & Hres & Hts & Hhd & Hb & Hmc).
  destruct (lv_loop_iter rnd _ _ _ Hloop) as [_ Hstop].
  destruct (mark_path_head start stack _ Hts Hhd) as [Hlb Hl].
  pose proof Hts as [_ Hnd Hbd _].
  exists ((lv_move_count st =? total_squares) &&
          is_closed_tour (lv_current st) start), (lv_board st), (lv_current st).
  split; [done|]. rewrite Hb, count_positive_mark_path by done.
  split; [done|]. split; [done|]. intros Hfew.
  assert (lv_move_count st < total_squares) as Hlt
      by (rewrite Hmc; change total_squares with 64; lia).
  split; [|split].
  - apply andb_false_iff. left. apply Z.eqb_neq. lia.
  - apply lv_step_None in Hstop as [Hfull|Hstuck]; [lia|].
    by rewrite Hb in Hstuck.
  - intros c Hstep Hc H0.
    apply lv_step_None in Hstop as [Hfull|Hstuck]; [lia|].
    rewrite Hb in Hstuck.
    assert (c ∈ get_valid_moves (lv_current st).1 (lv_current st).2
                                (mark_path stack)) as Hin'.
    { apply elem_of_get_valid_moves. split; [|done].
      by destruct (lv_current st). }
    rewrite Hstuck in Hin'. by apply elem_of_nil in Hin'.
Qed.

Lemma las_vegas_stops_at_dead_end_witness :
  in_bounds (0, 0) /\
  exists ok b last,
    KnightsTourLasVegas (fun _ => 0%nat) (0, 0) = Some (ok, b) /\
    in_bounds last /\
    cell b last.1 last.2 = Z.of_nat (count_positive b).
Proof.
  assert (in_bounds (0, 0)) as Hin by concrete_in_bounds.
  split; [exact Hin|].
  destruct (las_vegas_stops_at_dead_end (fun _ => 0%nat) (0, 0) Hin)
    as (ok & b & last & H1 & H2 & H3 & _).
  exists ok, b, last. exact (conj H1 (conj H2 H3)).
Defined.

(** X4: every walk is a possible outcome of the random choices.  For any
    stack of distinct in-bounds cells that starts at [start] and moves by
    knight offsets, some random source makes the Las Vegas loop reach, after
    one iteration per move, the board numbering that stack; when the stack
    is a closed tour, [KnightsTourLasVegas] returns it with the flag set. *)
Theorem las_vegas_reaches_every_walk (start : Pos) (stack : list Pos)
        (top : Pos) :
  tour_stack start stack -> head stack = Some top ->
  exists rnd,
    lv_iter rnd (length stack - 1) (lv_init start) =
      LvState (mark_path stack) top (Z.of_nat (length stack))
              (length stack - 1) /\
    (closed_tour_stack start stack ->
     KnightsTourLasVegas rnd start = Some (true, mark_path stack)).
Proof.
  intros Hts Hhd. destruct (lv_reach start stack top Hts Hhd) as [rnd Hreach].
  exists rnd. split; [done|]. intros (_ & Hlen & c & Hhd' & Hclosed).
  assert (c = top) as -> by congruence.
  change (Z.to_nat total_squares) with 64%nat in Hlen.
  rewrite Hlen in Hreach. change (64 - 1)%nat with 63%nat in Hreach.
  unfold KnightsTourLasVegas, KnightsTourLasVegas_fuel.
  change (Z.to_nat total_squares) with 64%nat.
  rewrite lv_iter_loop; rewrite Hreach.
  - cbn [lv_move_count lv_current lv_board]. by rewrite Hclosed.
  - unfold lv_step. by destruct top.
Qed.

Lemma las_vegas_reaches_every_walk_witness :
  tour_stack (0, 0) [(4, 2); (2, 1); (0, 0)] /\
  exists rnd,
    lv_board (lv_iter rnd 2 (lv_init (0, 0))) =
    [[1; 0; 0; 0; 0; 0; 0; 0]; [0; 0; 0; 0; 0; 0; 0; 0];
     [0; 2; 0; 0; 0; 0; 0; 0]; [0; 0; 0; 0; 0; 0; 0; 0];
     [0; 0; 3; 0; 0; 0; 0; 0]; [0; 0; 0; 0; 0; 0; 0; 0];
     [0; 0; 0; 0; 0; 0; 0; 0]; [0; 0; 0; 0; 0; 0; 0; 0]].
Proof.
  assert (tour_stack (0, 0) [(4, 2); (2, 1); (0, 0)]) as Hts.
  { split.
    - reflexivity.
    - apply (bool_decide_unpack _). vm_compute. exact I.
    - repeat (apply Forall_cons; split; [concrete_in_bounds|]).
      apply Forall_nil_2.
    - repeat (apply knight_chain_cons; [apply is_closed_tour_spec; reflexivity|]).
      apply knight_chain_one. }
  split; [exact Hts|].
  destruct (las_vegas_reaches_every_walk (0, 0) _ (4, 2) Hts eq_refl)
    as [rnd [Hreach _]].
  exists rnd. cbn [length Nat.sub] in Hreach. rewrite Hreach.
  vm_compute. reflexivity.
Defined.

(** X5: whatever board the backtracking search returns, the Las Vegas walk
    can return too: from every in-bounds start there are random choices for
    which [KnightsTourLasVegas] succeeds with the board of
    [KnightsTourBacktracking]. *)
Theorem las_vegas_can_match_backtracking (start : Pos) :
  in_bounds start ->
  exists rnd b,
    KnightsTourBacktracking start = Some (true, b) /\
    KnightsTourLasVegas rnd start = Some (true, b).
Proof.
  intros Hin.
  destruct (closed_tour_everywhere start Hin) as [stack0 Htour0].
  destruct (backtracking_finds_existing_tour start stack0 Hin Htour0)
    as [b Hrun].
  pose proof (backtracking_success start b Hin Hrun) as Htour.
  apply closed_tour_on_stack in Htour as (stack & Htour & -> & _).
  pose proof Htour as (Hts & _ & top & Hhd & _).
  destruct (lv_reach start stack top Hts Hhd) as [rnd Hreach].
  exists rnd, (mark_path stack). split; [done|].
  destruct Htour as (_ & Hlen & c & Hhd' & Hclosed).
  assert (c = top) as -> by congruence.
  change (Z.to_nat total_squares) with 64%nat in Hlen.
  rewrite Hlen in Hreach. change (64 - 1)%nat with 63%nat in Hreach.
  unfold KnightsTourLasVegas, KnightsTourLasVegas_fuel.
  change (Z.to_nat total_squares) with 64%nat.
  rewrite lv_iter_loop; rewrite Hreach.
  - cbn [lv_move_count lv_current lv_board]. by rewrite Hclosed.
  - unfold lv_step. by destruct top.
Qed.

Lemma las_vegas_can_match_backtracking_witness :
  in_bounds (0, 0) /\
  exists rnd, KnightsTourLasVegas rnd (0, 0) = Some (true, tour_from_origin).
Proof.
  assert (in_bounds (0, 0)) as Hin by concrete_in_bounds.
  split; [exact Hin|].
  destruct (las_vegas_can_match_backtracking (0, 0) Hin)
    as (rnd & b & Hbt & Hlv).
  exists rnd. rewrite Hlv. rewrite origin_run in Hbt.
  inversion Hbt. reflexivity.
Defined.

(** ** More on the move generator and the closure check *)

(** X6: the closure check is symmetric, and it holds exactly when the two
    cells are 1 and 2 (or 2 and 1) apart in their two coordinates. *)
Theorem is_closed_tour_symmetric (p q : Pos) :
  is_closed_tour p q = is_closed_tour q p /\
  (is_closed_tour p q = true <->
   (Z.abs (q.1 - p.1) = 1 /\ Z.abs (q.2 - p.2) = 2) \/
   (Z.abs (q.1 - p.1) = 2 /\ Z.abs (q.2 - p.2) = 1)).
Proof.
  assert (forall p q : Pos,
             is_closed_tour p q = true <->
             (Z.abs (q.1 - p.1) = 1 /\ Z.abs (q.2 - p.2) = 2) \/
             (Z.abs (q.1 - p.1) = 2 /\ Z.abs (q.2 - p.2) = 1)) as Hshape.
  { intros [x y] [sx sy]. unfold is_closed_tour, KNIGHT_MOVES.
    cbn [existsb fst snd].
    rewrite !orb_true_iff, !andb_true_iff, !Z.eqb_eq. lia. }
  split; [|apply Hshape].
  destruct (is_closed_tour p q) eqn:Hpq, (is_closed_tour q p) eqn:Hqp;
    try done.
  - apply Hshape in Hpq. apply not_true_iff_false in Hqp.
    exfalso. apply Hqp, Hshape. lia.
  - apply Hshape in Hqp. apply not_true_iff_false in Hpq.
    exfalso. apply Hpq, Hshape. lia.
Qed.

Lemma is_valid_move_marked (b : Board) (x y v : Z) (c : Pos) :
  wf_board b -> in_bounds (x, y) -> v <> 0 ->
  (is_valid_move c.1 c.2 (set_cell b x y v) = true <->
   is_valid_move c.1 c.2 b = true /\ c <> (x, y)).
Proof.
  intros Hwf Hxy Hv. rewrite !is_valid_move_spec.
  destruct c as [cx cy]. cbn [fst snd].
  destruct (decide ((cx, cy) = (x, y))) as [Heq|Hne].
  - inversion Heq; subst. rewrite cell_set_cell_eq by done. tauto.
  - split.
    + intros [Hc H0]. destruct Hxy as [Hx Hy], Hc as [Hcx Hcy].
      cbn [fst snd] in *.
      rewrite cell_set_cell_ne in H0 by (try lia; congruence). done.
    + intros [[Hc H0] _]. split; [done|].
      destruct Hxy as [Hx Hy], Hc as [Hcx Hcy]. cbn [fst snd] in *.
      rewrite cell_set_cell_ne by (try lia; congruence). done.
Qed.

Lemma NoDup_get_valid_moves (x y : Z) (b : Board) :
  NoDup (get_valid_moves x y b).
Proof.
  rewrite get_valid_moves_filter. apply NoDup_filter.
  apply NoDup_fmap_2_strong; [|apply (bool_decide_unpack _); by vm_compute].
  intros [dx dy] [dx' dy'] _ _ Heq. cbn [fst snd] in Heq.
  inversion Heq. f_equal; lia.
Qed.

(** X7: on a board of the program's dimensions the candidate list of
    [get_valid_moves] has no duplicates, at most 8 entries, and never holds
    the cell it was asked about; [get_sorted_moves] keeps both facts; and
    marking an in-bounds cell removes exactly that cell from the candidate
    list of any position. *)
Theorem get_valid_moves_candidates (x y : Z) (b : Board) :
  wf_board b ->
  NoDup (get_valid_moves x y b) /\
  NoDup (get_sorted_moves x y b) /\
  0 <= count_onward_moves x y b <= 8 /\
  length (get_sorted_moves x y b) = length (get_valid_moves x y b) /\
  ((x, y) ∉ get_valid_moves x y b) /\
  (forall cx cy v, in_bounds (cx, cy) -> v <> 0 ->
     get_valid_moves x y (set_cell b cx cy v) =
     filter (fun c => c <> (cx, cy)) (get_valid_moves x y b)).
Proof.
  intros Hwf. split; [apply NoDup_get_valid_moves|]. split; [|split; [|split; [|split]]].
  - unfold get_sorted_moves. rewrite sort_by_key_perm.
    apply NoDup_get_valid_moves.
  - unfold count_onward_moves. rewrite get_valid_moves_filter.
    pose proof (length_filter (fun c : Pos => is_valid_move c.1 c.2 b = true)
                  (map (fun d => (x + d.1, y + d.2)) KNIGHT_MOVES)) as Hle.
    rewrite length_map in Hle. change (length KNIGHT_MOVES) with 8%nat in Hle.
    lia.
  - unfold get_sorted_moves. by rewrite sort_by_key_perm.
  - intros Hin. apply elem_of_get_valid_moves in Hin as (Hstep & _).
    by apply knight_step_irrefl in Hstep.
  - intros cx cy v Hc Hv. rewrite !get_valid_moves_filter.
    rewrite list_filter_filter. apply filter_ext_elem. intros c _.
    rewrite (is_valid_move_marked b cx cy v c) by done. tauto.
Qed.

Lemma get_valid_moves_candidates_witness :
  wf_board empty_board /\
  get_valid_moves 0 0 (set_cell empty_board 2 1 5) = [(1, 2)] /\
  get_valid_moves 0 0 empty_board = [(2, 1); (1, 2)].
Proof.
  split; [apply wf_empty_board|]. split; [|by vm_compute].
  destruct (get_valid_moves_candidates 0 0 empty_board wf_empty_board)
    as (_ & _ & _ & _ & _ & Hmark).
  rewrite (Hmark 2 1 5); [by vm_compute|concrete_in_bounds|done].
Defined.

(** ** Colours *)

Lemma knight_step_colour (p q : Pos) :
  knight_step p q -> Z.odd (p.1 + p.2 + q.1 + q.2) = true.
Proof.
  intros ([dx dy] & Hd & ->). cbn [fst snd].
  unfold KNIGHT_MOVES in Hd. rewrite !elem_of_cons, elem_of_nil in Hd.
  replace (p.1 + p.2 + (p.1 + dx) + (p.2 + dy))
    with (dx + dy + 2 * (p.1 + p.2)) by lia.
  rewrite Z.odd_add_mul_2.
  destruct Hd as [H|[H|[H|[H|[H|[H|[H|[H|[]]]]]]]]]; by inversion H.
Qed.

(** Along a stack the index parity follows the colour of the cell. *)
Lemma tour_stack_colour (start : Pos) (stack : list Pos) (i : nat) (c : Pos) :
  tour_stack start stack -> stack !! i = Some c ->
  Z.odd (Z.of_nat (length stack - i)) =
  Z.even (c.1 + c.2 + start.1 + start.2).
Proof.
  revert i c. induction stack as [|c0 [|p s] IH]; intros i c Hts Hi; [done| |].
  - destruct i; [|done]. pose proof Hts as [Hlast _ _ _].
    cbn in Hlast, Hi. assert (c = start) as -> by congruence.
    replace (start.1 + start.2 + start.1 + start.2)
      with (2 * (start.1 + start.2)) by lia.
    rewrite Z.even_mul. done.
  - pose proof (tour_stack_suffix start [c0] (p :: s) Hts ltac:(done)) as Hts'.
    destruct i as [|j].
    + cbn in Hi. inversion Hi; subst c0.
      pose proof (IH 0%nat p Hts' eq_refl) as Hp.
      destruct Hts as [_ _ _ Hch].
      apply knight_chain_cons_inv in Hch as [Hstep _].
      apply knight_step_colour in Hstep.
      replace (length (c :: p :: s) - 0)%nat
        with (S (length (p :: s) - 0))%nat by (cbn [length]; lia).
      rewrite Nat2Z.inj_succ, Z.odd_succ, <- Z.negb_odd, Hp.
      rewrite <- !Z.negb_odd. f_equal. f_equal.
      replace (c.1 + c.2 + start.1 + start.2)
        with ((p.1 + p.2 + c.1 + c.2) + (p.1 + p.2 + start.1 + start.2)
              + 2 * (- (p.1 + p.2))) by lia.
      rewrite Z.odd_add_mul_2, (Z.odd_add (p.1 + p.2 + c.1 + c.2)), Hstep.
      by destruct (Z.odd (p.1 + p.2 + start.1 + start.2)).
    + cbn [lookup list_lookup] in Hi.
      rewrite <- (IH j c Hts' Hi). f_equal.
Qed.

(** X8: in the board either search returns from an in-bounds start, the
    parity of a move index tells the colour of its cell: odd indices are on
    cells of the start cell's colour, even indices on the other colour. *)
Theorem search_boards_alternate_colours (start : Pos) :
  in_bounds start ->
  let coloured := fun b : Board =>
    forall c, in_bounds c -> cell b c.1 c.2 <> 0 ->
      Z.odd (cell b c.1 c.2) = Z.even (c.1 + c.2 + start.1 + start.2) in
  (forall ok b, KnightsTourBacktracking start = Some (ok, b) -> coloured b) /\
  (forall rnd ok b, KnightsTourLasVegas rnd start = Some (ok, b) ->
                    coloured b).
Proof.
  intros Hin coloured.
  assert (forall stack, tour_stack start stack -> coloured (mark_path stack))
    as Hcol.
  { intros stack Hts c Hc Hmark.
    destruct (cell_mark_path_inv start stack c _ Hts Hc eq_refl Hmark)
      as [Hk Hi].
    rewrite <- (tour_stack_colour start stack _ c Hts Hi). f_equal. lia. }
  split.
  - intros ok b Hrun.
    destruct (backtracking_run start Hin) as (ok' & b' & log & _ & Hrun' & Hok).
    rewrite Hrun in Hrun'. inversion Hrun'; subst ok' b'.
    destruct Hok as (_ & Hyes & Hno). cbn [fst snd] in Hyes, Hno.
    destruct ok.
    + destruct (Hyes eq_refl) as (stack & Hts & -> & _). by apply Hcol.
    + rewrite (Hno eq_refl).
      change (set_cell empty_board start.1 start.2 1)
        with (set_cell (mark_path []) start.1 start.2
                       (Z.of_nat (length [start]))).
      replace (set_cell (mark_path []) start.1 start.2
                        (Z.of_nat (length [start])))
        with (mark_path [start]) by (by destruct start).
      by apply Hcol, tour_stack_single.
  - intros rnd ok b Hrun.
    destruct (las_vegas_run rnd start Hin)
      as (st & stack & _ & _ & Hres & Hts & _ & Hb & _).
    rewrite Hrun in Hres. inversion Hres; subst. rewrite Hb. by apply Hcol.
Qed.

Lemma search_boards_alternate_colours_witness :
  in_bounds (0, 0) /\
  KnightsTourBacktracking (0, 0) = Some (true, tour_from_origin) /\
  Z.odd (cell tour_from_origin 7 7) = Z.even (7 + 7 + 0 + 0).
Proof.
  assert (in_bounds (0, 0)) as Hin by concrete_in_bounds.
  assert (in_bounds (7, 7)) as Hc by concrete_in_bounds.
  assert (KnightsTourBacktracking (0, 0) = Some (true, tour_from_origin))
    as Hrun by (vm_compute; reflexivity).
  split; [exact Hin|]. split; [exact Hrun|].
  apply (proj1 (search_boards_alternate_colours (0, 0) Hin)
           true tour_from_origin Hrun (7, 7) Hc).
  vm_compute. discriminate.
Defined.

(** ** The visited-cell counters *)

Lemma length_filter_fmap {A B : Type} (P : B -> Prop)
      `{!forall b, Decision (P b)} (f : A -> B) (l : list A) :
  length (filter P (f <$> l)) = length (filter (fun a => P (f a)) l).
Proof.
  induction l as [|a l IH]; [done|].
  cbn [fmap list_fmap]. rewrite !filter_cons.
  destruct (decide (P (f a))); cbn [length]; by rewrite IH.
Qed.

(** Reading an 8x8 board cell by cell in index order gives its rows one
    after the other. *)
Lemma cells_in_index_order (b : Board) :
  wf_board b ->
  (fun c : Pos => cell b c.1 c.2) <$> all_cells = concat b.
Proof.
  intros [Hlen Hrows]. change (Z.to_nat BOARD_SIZE) with 8%nat in *.
  do 8 (destruct b as [|? b]; [cbn [length] in Hlen; lia|]).
  destruct b; [|cbn [length] in Hlen; lia].
  repeat match goal with
         | H : Forall _ (_ :: _) |- _ => apply Forall_cons in H as [? H]
         end.
  repeat match goal with
         | H : length ?l = 8%nat |- _ =>
             do 8 (destruct l as [|? l]; [cbn [length] in H; lia|]);
             (destruct l; [|cbn [length] in H; lia]); clear H
         end.
  reflexivity.
Qed.

(** X9: on a board of the program's dimensions, the counter of
    [display_board], which reads the cells by index, and the counter of
    [main], which walks the rows, give the same number, at most 64; on the
    board a search returns it is the highest move index. *)
Theorem visited_counters_agree (b : Board) :
  wf_board b ->
  visited_count b = Z.of_nat (count_positive b) /\
  0 <= visited_count b <= 64 /\
  (forall start stack, tour_stack start stack -> b = mark_path stack ->
                       visited_count b = Z.of_nat (length stack)).
Proof.
  intros Hwf.
  assert (visited_count b = Z.of_nat (count_positive b)) as Heq.
  { unfold visited_count, count_positive. fold all_cells.
    rewrite <- (cells_in_index_order b Hwf).
    by rewrite (length_filter_fmap (fun v => 0 < v)). }
  split; [done|]. split.
  - unfold visited_count. fold all_cells.
    pose proof (length_filter (fun c : Pos => 0 < cell b c.1 c.2) all_cells)
      as Hle.
    rewrite length_all_cells in Hle.
    change (Z.to_nat total_squares) with 64%nat in Hle. lia.
  - intros start stack [_ Hnd Hb _] ->.
    by rewrite Heq, count_positive_mark_path.
Qed.

Lemma visited_counters_agree_witness :
  wf_board tour_from_origin /\
  visited_count tour_from_origin = 64 /\
  visited_count tour_but_last = 63.
Proof.
  assert (wf_board tour_from_origin) as Hwf.
  { split; [reflexivity|]. repeat (apply Forall_cons; split; [reflexivity|]).
    apply Forall_nil_2. }
  split; [exact Hwf|].
  split.
  - rewrite (proj1 (visited_counters_agree tour_from_origin Hwf)).
    vm_compute. reflexivity.
  - vm_compute. reflexivity.
Defined.

(** ** The batch test *)

Section SuccessTestFacts.
Variable rnds : nat -> nat -> nat.
Variable start : Pos.
Hypothesis start_in_bounds : in_bounds start.

Lemma lv_test_loop_returns (runs : Z) (indices : list Z)
      (count : Z) (progress : list Z) :
  runs `div` 10 <> 0 ->
  exists n,
    lv_test_loop rnds start runs indices count progress =
      Returned (n, progress ++
                   filter (fun k => k `mod` (runs `div` 10) = 0)
                          (Z.add 1 <$> indices)) /\
    count <= n <= count + Z.of_nat (length indices).
Proof.
  intros Hq. revert count progress.
  induction indices as [|i rest IH]; intros count progress.
  - exists count. cbn [lv_test_loop fmap list_fmap filter list_filter].
    rewrite app_nil_r. split; [done|cbn [length]; lia].
  - cbn [lv_test_loop]. apply Z.eqb_neq in Hq as Hq'. rewrite Hq'.
    destruct (las_vegas_run (rnds (Z.to_nat i)) start start_in_bounds)
      as (st & _ & _ & _ & Hres & _).
    rewrite Hres.
    destruct (IH (if (lv_move_count st =? total_squares) &&
                       is_closed_tour (lv_current st) start
                  then count + 1 else count)
                 (if (i + 1) `mod` (runs `div` 10) =? 0
                  then progress ++ [i + 1] else progress))
      as (n & Hrun & Hn).
    exists n. rewrite Hrun. split.
    + f_equal. f_equal. cbn [fmap list_fmap]. rewrite filter_cons.
      replace (1 + i) with (i + 1) by lia.
      destruct ((i + 1) `mod` (runs `div` 10) =? 0) eqn:Hmod.
      * apply Z.eqb_eq in Hmod. rewrite decide_True by done.
        by rewrite <- app_assoc.
      * apply Z.eqb_neq in Hmod. by rewrite decide_False by done.
    + cbn [length].
      destruct ((lv_move_count st =? total_squares) &&
                is_closed_tour (lv_current st) start); lia.
Qed.

Lemma bt_test_loop_counts (indices : list Z) (count : Z) :
  bt_test_loop start indices count =
  Returned (count + Z.of_nat (length indices)).
Proof.
  destruct (closed_tour_everywhere start start_in_bounds) as [stack Htour].
  destruct (backtracking_finds_existing_tour start stack start_in_bounds Htour)
    as [b Hrun].
  revert count. induction indices as [|i rest IH]; intros count.
  - cbn [bt_test_loop length]. f_equal. lia.
  - cbn [bt_test_loop]. rewrite Hrun, IH. f_equal. cbn [length]. lia.
Qed.

(** The multiples of [q] among 1..n. *)
Lemma count_multiples (q : Z) (n : nat) :
  0 < q ->
  Z.of_nat (length (filter (fun k => k `mod` q = 0) (seqZ 1 (Z.of_nat n)))) =
  Z.of_nat n `div` q.
Proof.
  intros Hq. induction n as [|n IH]; [by rewrite Z.div_0_l by lia|].
  rewrite seqZ_S, filter_app, length_app, Nat2Z.inj_add, IH.
  rewrite filter_cons, filter_nil.
  pose proof (Z.div_mod (Z.of_nat n) q ltac:(lia)) as Hn.
  pose proof (Z.mod_pos_bound (Z.of_nat n) q Hq) as Hnb.
  pose proof (Z.div_mod (Z.of_nat (S n)) q ltac:(lia)) as HS.
  pose proof (Z.mod_pos_bound (Z.of_nat (S n)) q Hq) as HSb.
  replace (1 + Z.of_nat n) with (Z.of_nat (S n)) by lia.
  case_decide as Hmod; cbn [length]; nia.
Qed.

Lemma run_success_test_below_ten (runs : Z) :
  0 <= runs < 10 ->
  run_success_test rnds start runs = ZeroDivisionError.
Proof.
  intros Hruns. unfold run_success_test.
  destruct (decide (runs = 0)) as [->|Hne]; [done|].
  rewrite (seqZ_cons 0 runs) by lia. cbn [lv_test_loop].
  by rewrite Z.div_small by lia.
Qed.

Lemma run_success_test_negative (runs : Z) :
  runs < 0 ->
  run_success_test rnds start runs = Returned (0, [], 5).
Proof.
  intros Hruns. unfold run_success_test. rewrite (seqZ_nil 0 runs) by lia.
  cbn [lv_test_loop mbind outcome_bind].
  assert ((runs =? 0) = false) as -> by (apply Z.eqb_neq; lia).
  by rewrite bt_test_loop_counts.
Qed.

Lemma run_success_test_from_ten (runs : Z) :
  10 <= runs ->
  exists lv_success_count,
    run_success_test rnds start runs =
      Returned (lv_success_count,
                filter (fun k => k `mod` (runs `div` 10) = 0) (seqZ 1 runs),
                5) /\
    0 <= lv_success_count <= runs.
Proof.
  intros Hruns. unfold run_success_test.
  assert (0 < runs `div` 10) as Hq by (apply Z.div_str_pos; lia).
  destruct (lv_test_loop_returns runs (seqZ 0 runs) 0 [] ltac:(lia))
    as (n & Hrun & Hn).
  rewrite Hrun. cbn [mbind outcome_bind].
  assert ((runs =? 0) = false) as -> by (apply Z.eqb_neq; lia).
  rewrite bt_test_loop_counts. cbn [mbind outcome_bind].
  exists n. rewrite fmap_add_seqZ, app_nil_l. split; [done|].
  rewrite length_seqZ in Hn. lia.
Qed.
End SuccessTestFacts.

(** *** The record of events does not change the outcome *)

Lemma lv_test_loop_untraced (rnds : nat -> nat -> nat) (start : Pos)
      (runs : Z) (indices : list Z) (count : Z) (progress : list Z)
      (trace : list test_event) :
  untraced (lv_test_loop_log rnds start runs indices count progress trace).2 =
  lv_test_loop rnds start runs indices count progress.
Proof.
  revert count progress trace.
  induction indices as [|i rest IH]; intros count progress trace; [done|].
  cbn [lv_test_loop_log lv_test_loop].
  destruct (runs `div` 10 =? 0); [done|]. cbv zeta.
  destruct (KnightsTourLasVegas (rnds (Z.to_nat i)) start) as [[ok b]|];
    [apply IH|done].
Qed.

Lemma bt_test_loop_untraced (start : Pos) (indices : list Z) (count : Z)
      (trace : list test_event) :
  untraced (bt_test_loop_log start indices count trace).2 =
  bt_test_loop start indices count.
Proof.
  revert count trace.
  induction indices as [|i rest IH]; intros count trace; [done|].
  cbn [bt_test_loop_log bt_test_loop]. cbv zeta.
  destruct (KnightsTourBacktracking start) as [[ok b]|]; [apply IH|done].
Qed.

Lemma run_success_test_untraced (rnds : nat -> nat -> nat) (start : Pos)
      (runs : Z) :
  untraced (run_success_test_log rnds start runs).2 =
  run_success_test rnds start runs.
Proof.
  unfold run_success_test_log, run_success_test.
  rewrite <- (lv_test_loop_untraced rnds start runs (seqZ 0 runs) 0 [] []).
  destruct (lv_test_loop_log rnds start runs (seqZ 0 runs) 0 [] [])
    as [trace [[n progress]|site|]]; cbn [snd untraced mbind outcome_bind];
    [|done|done].
  destruct (runs =? 0); [done|]. cbv zeta.
  rewrite <- (bt_test_loop_untraced start (seqZ 0 5) 0 trace).
  by destruct (bt_test_loop_log start (seqZ 0 5) 0 trace)
    as [trace' [m|site|]].
Qed.

Lemma bt_test_loop_log_counts (start : Pos) (indices : list Z) (count : Z)
      (trace : list test_event) :
  in_bounds start ->
  bt_test_loop_log start indices count trace =
  (trace ++ (BacktrackingRun <$> indices),
   TracedReturned (count + Z.of_nat (length indices))).
Proof.
  intros Hin.
  destruct (closed_tour_everywhere start Hin) as [stack Htour].
  destruct (backtracking_finds_existing_tour start stack Hin Htour)
    as [b Hrun].
  revert count trace. induction indices as [|i rest IH]; intros count trace.
  - cbn [bt_test_loop_log fmap list_fmap length].
    rewrite app_nil_r. do 2 f_equal. lia.
  - cbn [bt_test_loop_log]. cbv zeta. rewrite Hrun, IH.
    cbn [fmap list_fmap length]. rewrite <- app_assoc. cbn [app].
    do 2 f_equal. lia.
Qed.

(** X10: [run_success_test] raises ZeroDivisionError for 0 <= runs < 10,
    whatever the start and the random choices are, and before any search
    has run or any line of progress is printed: for runs = 0 at the rate
    [lv_success_count / runs] after the empty first loop, for runs in 1..9
    at the progress test of the first iteration (i = 0).  From an in-bounds
    start these are the only raises; for negative [runs] the test returns
    with counters 0 and 5, having made the five backtracking runs and no
    Las Vegas run. *)
Theorem run_success_test_division_by_zero
        (rnds : nat -> nat -> nat) (start : Pos) (runs : Z) :
  untraced (run_success_test_log rnds start runs).2 =
    run_success_test rnds start runs /\
  (runs = 0 ->
   run_success_test_log rnds start runs =
     ([], TracedRaised AtLasVegasRate)) /\
  (1 <= runs < 10 ->
   run_success_test_log rnds start runs =
     ([], TracedRaised (AtProgressTest 0))) /\
  (in_bounds start ->
   (run_success_test rnds start runs = ZeroDivisionError <->
    0 <= runs < 10) /\
   run_success_test rnds start runs <> OutOfFuel /\
   (runs < 0 ->
    run_success_test rnds start runs = Returned (0, [], 5) /\
    run_success_test_log rnds start runs =
      (BacktrackingRun <$> seqZ 0 5, TracedReturned (0, [], 5)))).
Proof.
  split; [apply run_success_test_untraced|]. split; [|split].
  - intros ->. reflexivity.
  - intros Hruns. unfold run_success_test_log.
    rewrite (seqZ_cons 0 runs) by lia. cbn [lv_test_loop_log].
    by rewrite Z.div_small by lia.
  - intros Hin.
    destruct (decide (0 <= runs < 10)) as [Hsmall|Hbig].
    + rewrite (run_success_test_below_ten rnds start runs Hsmall).
      split; [done|]. split; [done|lia].
    + destruct (decide (runs < 0)) as [Hneg|Hpos].
      * rewrite (run_success_test_negative rnds start Hin runs Hneg).
        split; [split; [done|lia]|]. split; [done|]. intros _.
        split; [done|]. unfold run_success_test_log.
        rewrite (seqZ_nil 0 runs) by lia. cbn [lv_test_loop_log].
        assert ((runs =? 0) = false) as -> by (apply Z.eqb_neq; lia).
        cbv zeta. by rewrite (bt_test_loop_log_counts start _ 0 [] Hin).
      * destruct (run_success_test_from_ten rnds start Hin runs ltac:(lia))
          as (n & -> & _).
        split; [split; [done|lia]|]. split; [done|lia].
Qed.

Lemma run_success_test_division_by_zero_witness :
  in_bounds (0, 0) /\
  run_success_test_log (fun _ _ => 0%nat) (0, 0) 9 =
    ([], TracedRaised (AtProgressTest 0)) /\
  run_success_test_log (fun _ _ => 0%nat) (0, 0) 0 =
    ([], TracedRaised AtLasVegasRate) /\
  run_success_test (fun _ _ => 0%nat) (0, 0) 9 = ZeroDivisionError /\
  run_success_test (fun _ _ => 0%nat) (0, 0) (-3) = Returned (0, [], 5).
Proof.
  assert (in_bounds (0, 0)) as Hin by concrete_in_bounds.
  split; [exact Hin|].
  split; [apply (run_success_test_division_by_zero (fun _ _ => 0%nat)
                   (0, 0) 9); lia|].
  split; [apply (run_success_test_division_by_zero (fun _ _ => 0%nat)
                   (0, 0) 0); lia|].
  split.
  - apply (run_success_test_division_by_zero (fun _ _ => 0%nat) (0, 0) 9 );
      [exact Hin|lia].
  - apply (run_success_test_division_by_zero (fun _ _ => 0%nat) (0, 0) (-3));
      [exact Hin|lia].
Defined.

(** X11: from an in-bounds start and with at least 10 runs,
    [run_success_test] returns; the Las Vegas counter is between 0 and
    [runs], the backtracking counter is 5 out of 5, and progress is printed
    at the multiples of [runs // 10]: between 10 and 19 times, exactly 10
    times when [runs] is a multiple of 10. *)
Theorem run_success_test_counts
        (rnds : nat -> nat -> nat) (start : Pos) (runs : Z) :
  in_bounds start -> 10 <= runs ->
  exists lv_success_count progress,
    run_success_test rnds start runs =
      Returned (lv_success_count, progress, 5) /\
    0 <= lv_success_count <= runs /\
    progress = filter (fun k => k `mod` (runs `div` 10) = 0) (seqZ 1 runs) /\
    Z.of_nat (length progress) = runs `div` (runs `div` 10) /\
    10 <= Z.of_nat (length progress) <= 19 /\
    (runs `mod` 10 = 0 -> length progress = 10%nat).
Proof.
  intros Hin Hruns.
  destruct (run_success_test_from_ten rnds start Hin runs Hruns)
    as (n & Hrun & Hn).
  exists n, (filter (fun k => k `mod` (runs `div` 10) = 0) (seqZ 1 runs)).
  split; [done|]. split; [done|]. split; [done|].
  assert (0 < runs `div` 10) as Hq by (apply Z.div_str_pos; lia).
  pose proof (count_multiples (runs `div` 10) (Z.to_nat runs) Hq) as Hcount.
  rewrite Z2Nat.id in Hcount by lia.
  pose proof (Z.div_mod runs 10 ltac:(lia)) as Hd.
  pose proof (Z.mod_pos_bound runs 10 ltac:(lia)) as Hdb.
  pose proof (Z.div_mod runs (runs `div` 10) ltac:(lia)) as He.
  pose proof (Z.mod_pos_bound runs (runs `div` 10) Hq) as Heb.
  split; [done|]. rewrite Hcount. split; [nia|].
  intros Hmod. apply Nat2Z.inj. rewrite Hcount. nia.
Qed.

Lemma run_success_test_counts_witness :
  in_bounds (0, 0) /\ 10 <= 12 /\
  exists lv_success_count,
    run_success_test (fun _ _ => 0%nat) (0, 0) 12 =
    Returned (lv_success_count, [1; 2; 3; 4; 5; 6; 7; 8; 9; 10; 11; 12], 5).
Proof.
  assert (in_bounds (0, 0)) as Hin by concrete_in_bounds.
  split; [exact Hin|]. split; [lia|].
  destruct (run_success_test_counts (fun _ _ => 0%nat) (0, 0) 12 Hin)
    as (n & progress & Hrun & _ & Hp & _); [lia|].
  exists n. rewrite Hrun, Hp. reflexivity.
Defined.

(** ** First-solution semantics *)

Lemma try_moves_first_success
      (rec : Z -> Z -> Board -> option (bool * Board))
      (mc : Z) (moves : list Pos) (b b' : Board) :
  (forall nx ny b1 b2, rec nx ny b1 = Some (false, b2) -> b2 = b1) ->
  candidates_of b moves ->
  (try_moves rec mc moves b = Some (true, b') <->
   exists tried c rest,
     moves = tried ++ c :: rest /\
     (forall c', c' ∈ tried ->
        rec c'.1 c'.2 (set_cell b c'.1 c'.2 (mc + 1)) =
          Some (false, set_cell b c'.1 c'.2 (mc + 1))) /\
     rec c.1 c.2 (set_cell b c.1 c.2 (mc + 1)) = Some (true, b')).
Proof.
  intros Hfail. induction moves as [|[nx ny] moves IH]; intros Hc.
  - cbn [try_moves]. split; [done|].
    intros (tried & c & rest & Heq & _). by destruct tried.
  - cbn [try_moves].
    assert (cell b nx ny = 0) as H0 by (apply (Hc (nx, ny)); by left).
    specialize (IH (candidates_tail _ _ _ Hc)).
    destruct (rec nx ny _) as [[[] b2]|] eqn:Hcall.
    + split.
      * intros Hrun. inversion Hrun; subst b2.
        exists [], (nx, ny), moves. split; [done|]. split; [|done].
        intros c' Hc'. by apply elem_of_nil in Hc'.
      * intros (tried & c & rest & Heq & Htried & Hfound).
        destruct tried as [|t tried]; cbn [app] in Heq; inversion Heq; subst.
        -- cbn [fst snd] in Hfound. congruence.
        -- specialize (Htried (nx, ny) ltac:(by left)).
           cbn [fst snd] in Htried. congruence.
    + pose proof (Hfail _ _ _ _ Hcall) as ->.
      rewrite unmark_mark by done. rewrite IH. split.
      * intros (tried & c & rest & -> & Htried & Hfound).
        exists ((nx, ny) :: tried), c, rest. split; [done|]. split; [|done].
        intros c' Hc'. apply elem_of_cons in Hc' as [->|Hc']; [done|].
        by apply Htried.
      * intros (tried & c & rest & Heq & Htried & Hfound).
        destruct tried as [|t tried]; cbn [app] in Heq; inversion Heq; subst.
        -- cbn [fst snd] in Hfound. congruence.
        -- exists tried, c, rest. split; [done|]. split; [|done].
           intros c' Hc'. apply Htried. by right.
    + split; [done|].
      intros (tried & c & rest & Heq & Htried & Hfound).
      destruct tried as [|t tried]; cbn [app] in Heq; inversion Heq; subst.
      * cbn [fst snd] in Hfound. congruence.
      * specialize (Htried (nx, ny) ltac:(by left)).
        cbn [fst snd] in Htried. congruence.
Qed.

(** X12: first-solution semantics.  A call of [backtrack] below the last
    move index succeeds exactly when some candidate of [get_sorted_moves]
    leads to success after every candidate ranked before it has failed (and
    been unmarked); the board returned is the one of that first successful
    candidate, and the candidates ranked after it are never tried. *)
Theorem backtrack_first_solution
        (start : Pos) (fuel : nat) (x y move_count : Z) (b b' : Board) :
  move_count <> total_squares ->
  (backtrack start (S fuel) x y move_count b = Some (true, b') <->
   exists tried c rest,
     get_sorted_moves x y b = tried ++ c :: rest /\
     (forall c', c' ∈ tried ->
        backtrack start fuel c'.1 c'.2 (move_count + 1)
                  (set_cell b c'.1 c'.2 (move_count + 1)) =
          Some (false, set_cell b c'.1 c'.2 (move_count + 1))) /\
     backtrack start fuel c.1 c.2 (move_count + 1)
               (set_cell b c.1 c.2 (move_count + 1)) = Some (true, b')).
Proof.
  intros Hmc. cbn [backtrack]. apply Z.eqb_neq in Hmc. rewrite Hmc.
  exact (try_moves_first_success
           (fun nx ny b1 => backtrack start fuel nx ny (move_count + 1) b1)
           move_count (get_sorted_moves x y b) b b'
           (fun nx ny b1 b2 =>
              backtrack_failure start fuel nx ny (move_count + 1) b1 b2)
           (candidates_sorted start x y b)).
Qed.

Lemma backtrack_first_solution_witness :
  1 <> total_squares /\
  backtrack (0, 0) 64 0 0 1 (set_cell empty_board 0 0 1) =
    Some (true, tour_from_origin) /\
  exists tried c rest,
    get_sorted_moves 0 0 (set_cell empty_board 0 0 1) = tried ++ c :: rest /\
    backtrack (0, 0) 63 c.1 c.2 2
              (set_cell (set_cell empty_board 0 0 1) c.1 c.2 2) =
      Some (true, tour_from_origin).
Proof.
  assert (1 <> total_squares) as Hmc by (by vm_compute).
  assert (backtrack (0, 0) 64 0 0 1 (set_cell empty_board 0 0 1) =
          Some (true, tour_from_origin)) as Hrun by (vm_compute; reflexivity).
  split; [exact Hmc|]. split; [exact Hrun|].
  destruct (proj1 (backtrack_first_solution (0, 0) 63 0 0 1 _ _ Hmc) Hrun)
    as (tried & c & rest & Heq & _ & Hfound).
  exists tried, c, rest. exact (conj Heq Hfound).
Defined.
